(** * Calculus utilities (utils/calculus_utils.py)

    A shallow embedding of the symbolic and numerical helpers of
    [calculus_utils.py], and the properties its specification states about
    them.

    The helpers are thin wrappers around two third-party libraries: a
    computer-algebra engine (SymPy) and an array library (NumPy).  Neither is
    part of the repository, so both are taken as an interface, [Engine], whose
    operations may raise.  The wrappers are written over that interface in a
    small monad that records the engine calls made and the warnings issued,
    and carries Python exceptions.  Python floats are binary64 and are
    modelled by Rocq's primitive floats. *)

From Stdlib Require Import ZArith List String Bool Lia DecimalString.
From Stdlib Require Import Permutation.
From Stdlib Require Import Floats.
Import ListNotations.

Set Implicit Arguments.
Local Set Warnings "-inexact-float".

(** ** Exceptions and results *)

(** The exceptions that can reach a caller, by where they are raised.
    [ValueError] is one raised by a [raise] statement of the module itself;
    [ZeroDivisionError], [IndexError] and [TypeError] are raised by Python's
    and NumPy's arithmetic and indexing in the module's own lines;
    [EngineError] stands for any [Exception] raised inside a SymPy or NumPy
    call, whatever its Python class (NumPy's own ValueError for a negative
    number of samples is one), with its message. *)
Inductive exn : Type :=
| ValueError (msg : string)
| ZeroDivisionError (msg : string)
| IndexError (msg : string)
| TypeError (msg : string)
| EngineError (msg : string).

(** [str(e)] for an exception. *)
Definition exn_str (e : exn) : string :=
  match e with
  | ValueError m | ZeroDivisionError m | IndexError m | TypeError m
  | EngineError m => m
  end.

Inductive exc (A : Type) : Type :=
| Ret (a : A)
| Raise (e : exn).
Arguments Ret {A} a.
Arguments Raise {A} e.

(** ** Observable effects *)

(** What a call does besides returning: the engine calls it makes, in order,
    and the warnings it issues through [warnings.warn]. *)
Inductive event : Type :=
| EvSympify (s : string)
| EvDiff
| EvSubs
| EvLimit
| EvSimplify
| EvIntegrate
| EvLambdify
| EvApply
| EvLinspace (num : Z)
| EvSum
| EvWarn (msg : string).

Definition is_warning (ev : event) : bool :=
  match ev with EvWarn _ => true | _ => false end.

(** An event that evaluates the function being studied, numerically or
    symbolically, or samples and sums it. *)
Definition is_evaluation (ev : event) : bool :=
  match ev with
  | EvSympify _ | EvLambdify | EvWarn _ => false
  | _ => true
  end.

(** ** The monad of the wrappers: a log of events and a result or an
    exception. *)
Definition M (A : Type) : Type := (list event * exc A)%type.

Definition ret {A} (a : A) : M A := ([], Ret a).
Definition raise {A} (e : exn) : M A := ([], Raise e).

Definition bind {A B} (m : M A) (k : A -> M B) : M B :=
  match m with
  | (t, Ret a) => let (t', r) := k a in (t ++ t', r)
  | (t, Raise e) => (t, Raise e)
  end.

(** [try: m  except Exception as e: h e]. *)
Definition try_except {A} (m : M A) (h : exn -> M A) : M A :=
  match m with
  | (t, Ret a) => (t, Ret a)
  | (t, Raise e) => let (t', r) := h e in (t ++ t', r)
  end.

(** What a SymPy or NumPy call gives back: a value, or the message of the
    exception it raised. *)
Inductive result (A : Type) : Type :=
| Ok (a : A)
| Err (msg : string).
Arguments Ok {A} a.
Arguments Err {A} msg.

(** A call into the engine: logged, then its value or its exception. *)
Definition engine {A} (ev : event) (r : result A) : M A :=
  ([ev], match r with Ok a => Ret a | Err msg => Raise (EngineError msg) end).

(** A Python operation that may raise and leaves no other trace. *)
Definition python {A} (r : exc A) : M A := ([], r).

Definition warn (msg : string) : M unit := ([EvWarn msg], Ret tt).

Definition trace {A} (m : M A) : list event := fst m.
Definition outcome {A} (m : M A) : exc A := snd m.
Definition warnings {A} (m : M A) : list event := filter is_warning (trace m).

Declare Scope py_scope.
Delimit Scope py_scope with py.
Notation "x <- m ;; k" := (bind m (fun x => k))
  (at level 61, m at next level, right associativity) : py_scope.
Notation "m ;;; k" := (bind m (fun _ => k))
  (at level 61, right associativity) : py_scope.
Local Open Scope py_scope.

(** ** Python numbers *)

(** [float(n)] for an int within the binary64 range: round to nearest even.
    (Ints too large for a double, for which the conversion raises
    OverflowError, are outside the model.) *)
Definition float_of_int (n : Z) : float :=
  SF2Prim (binary_normalize prec emax n 0 false).

(** [a / b] on Python floats: a zero divisor raises. *)
Definition truediv (a b : float) : exc float :=
  if (b =? 0)%float then Raise (ZeroDivisionError "float division by zero")
  else Ret (a / b)%float.

(** [a / n] for a float [a] and an int [n]. *)
Definition truediv_int (a : float) (n : Z) : exc float :=
  if (n =? 0)%Z then Raise (ZeroDivisionError "float division by zero")
  else Ret (a / float_of_int n)%float.

(** [ys[0]] and [ys[-1]] on an array. *)
Definition getitem_first (ys : list float) : exc float :=
  match ys with
  | [] => Raise (IndexError "index 0 is out of bounds for axis 0 with size 0")
  | y :: _ => Ret y
  end.

Definition getitem_last (ys : list float) : exc float :=
  match ys with
  | [] => Raise (IndexError "index -1 is out of bounds for axis 0 with size 0")
  | y :: rest => Ret (last rest y)
  end.

(** Every second element of a list, starting with the first when [take]. *)
Fixpoint stride2 (take : bool) (l : list float) : list float :=
  match l with
  | [] => []
  | y :: rest => if take then y :: stride2 false rest else stride2 true rest
  end.

(** [ys[start:-1:2]]. *)
Definition slice_step2 (start : nat) (ys : list float) : list float :=
  stride2 true (skipn start (removelast ys)).

(** What a lowered function gives when it is applied to an array.  An
    expression that mentions the variable gives an array of values; one that
    does not (a constant) gives a single number: the Python int or float the
    generated code returns, or a NumPy scalar. *)
Inductive scalar : Type :=
| PyInt (z : Z)
| PyFloat (v : float)
| NpFloat (v : float).

Inductive ndvalue : Type :=
| NdArray (ys : list float)
| NdScalar (s : scalar).

Definition scalar_float (s : scalar) : float :=
  match s with
  | PyInt z => float_of_int z
  | PyFloat v | NpFloat v => v
  end.

(** [y * dx] for a float [dx]. *)
Definition nd_scale (y : ndvalue) (dx : float) : ndvalue :=
  match y with
  | NdArray ys => NdArray (map (fun v => v * dx)%float ys)
  | NdScalar (NpFloat v) => NdScalar (NpFloat (v * dx))
  | NdScalar s => NdScalar (PyFloat (scalar_float s * dx))
  end.

(** Indexing or slicing a single number raises. *)
Definition scalar_index_error (s : scalar) : exn :=
  match s with
  | PyInt _ => TypeError "'int' object is not subscriptable"
  | PyFloat _ => TypeError "'float' object is not subscriptable"
  | NpFloat _ => IndexError "invalid index to scalar variable."
  end.

(** [y[0]], [y[-1]] and [y[start:-1:2]]. *)
Definition nd_getitem_first (y : ndvalue) : exc float :=
  match y with
  | NdArray ys => getitem_first ys
  | NdScalar s => Raise (scalar_index_error s)
  end.

Definition nd_getitem_last (y : ndvalue) : exc float :=
  match y with
  | NdArray ys => getitem_last ys
  | NdScalar s => Raise (scalar_index_error s)
  end.

Definition nd_slice_step2 (start : nat) (y : ndvalue) : exc (list float) :=
  match y with
  | NdArray ys => Ret (slice_step2 start ys)
  | NdScalar s => Raise (scalar_index_error s)
  end.

(** ** The engine interface *)

Inductive direction : Type := DirPlus | DirMinus | DirDefault.

Class Engine : Type := {
  (** symbolic expressions, and the numeric callables [lambdify] returns *)
  expr : Type;
  callable : Type;
  (** the constants the module names: [0], [oo], [nan], [zoo] *)
  zero : expr;
  oo : expr;
  nan : expr;
  zoo : expr;
  (** arithmetic on expressions builds expressions *)
  neg : expr -> expr;
  add : expr -> expr -> expr;
  sub : expr -> expr -> expr;
  mul : expr -> expr -> expr;
  div : expr -> expr -> expr;
  (** [==] and [str] *)
  expr_eqb : expr -> expr -> bool;
  str : expr -> string;
  (** SymPy calls *)
  sympify : string -> result expr;
  sp_diff : expr -> expr -> Z -> result expr;
  subs : expr -> expr -> expr -> result expr;
  sp_limit : expr -> expr -> expr -> direction -> result expr;
  simplify : expr -> result expr;
  sp_integrate : expr -> expr -> result expr;
  sp_integrate_bounds : expr -> expr -> expr -> expr -> result expr;
  lambdify : expr -> expr -> result callable;
  (** applying a lowered function to a float and to an array *)
  apply_scalar : callable -> float -> result float;
  apply_array : callable -> list float -> result ndvalue;
  (** NumPy calls *)
  np_linspace : float -> float -> Z -> result (list float);
  np_sum : list float -> float
}.

(** ** The wrappers *)

Section Wrappers.
Context {E : Engine}.

(** An expression argument: text to be parsed, or an expression passed
    through ([isinstance(expr, str)]). *)
Inductive input : Type :=
| Text (s : string)
| Sym (e : expr).

(** [if isinstance(expr, str): expr = sp.sympify(expr)]. *)
Definition normalize (func : input) : M expr :=
  match func with
  | Text s => engine (EvSympify s) (sympify s)
  | Sym e => ret e
  end.

(** *** DerivativeCalculator *)

Definition compute_derivative (f : input) (var : expr) (order : Z) : M expr :=
  f <- normalize f ;;
  engine EvDiff (sp_diff f var order).

Definition tangent_line (func : input) (point var : expr)
  : M (expr * expr * expr) :=
  func <- normalize func ;;
  d <- engine EvDiff (sp_diff func var 1) ;;
  slope <- engine EvSubs (subs d var point) ;;
  y_val <- engine EvSubs (subs func var point) ;;
  let tangent := add (mul slope (sub var point)) y_val in
  ret (tangent, slope, y_val).

(** *** IntegralCalculator *)

Definition indefinite_integral (f : input) (var : expr) : M expr :=
  f <- normalize f ;;
  engine EvIntegrate (sp_integrate f var).

Definition definite_integral (f : input) (var lower upper : expr) : M expr :=
  f <- normalize f ;;
  engine EvIntegrate (sp_integrate_bounds f var lower upper).

(** *** LimitCalculator *)

(** [direction == s], where [direction] may be [None]. *)
Definition direction_is (dir : option string) (s : string) : bool :=
  match dir with
  | Some d => (d =? s)%string
  | None => false
  end.

Definition compute_limit (f : input) (var point : expr) (dir : option string)
  : M expr :=
  f <- normalize f ;;
  if direction_is dir "+" then engine EvLimit (sp_limit f var point DirPlus)
  else if direction_is dir "-" then
    engine EvLimit (sp_limit f var point DirMinus)
  else engine EvLimit (sp_limit f var point DirDefault).

(** [v in l] on expressions. *)
Definition expr_in (v : expr) (l : list expr) : bool :=
  existsb (expr_eqb v) l.

(** The body of the [try] block of [check_continuity]. *)
Definition continuity_checks (func var point : expr) : M (bool * string) :=
  f_a <- engine EvSubs (subs func var point) ;;
  if expr_in f_a [nan; zoo; oo; neg oo] then
    ret (false, "f(" ++ str point ++ ") does not exist")%string
  else
    lim_val <- engine EvLimit (sp_limit func var point DirDefault) ;;
    if expr_in lim_val [nan; zoo] then
      ret (false, "limit as x→" ++ str point ++ " does not exist")%string
    else
      s <- engine EvSimplify (simplify (sub lim_val f_a)) ;;
      if expr_eqb s zero then
        ret (true, "Function is continuous"%string)
      else
        ret (false, "limit = " ++ str lim_val ++ " ≠ f(" ++ str point
                      ++ ") = " ++ str f_a)%string.

(** The parse comes first, outside the [try]; the handler turns whatever the
    block raises into a negative verdict. *)
Definition check_continuity (func : input) (var point : expr)
  : M (bool * string) :=
  func <- normalize func ;;
  try_except (continuity_checks func var point)
    (fun e => ret (false, "Error checking continuity: " ++ exn_str e)%string).

(** One entry of the record [lhopital_rule] returns. *)
Record lh_step : Type := LhStep {
  lh_iteration : Z;
  lh_numerator : expr;
  lh_denominator : expr;
  lh_num_limit : expr;
  lh_den_limit : expr
}.

(** [(num_val, den_val) in [(0, 0), (oo, oo), (-oo, -oo)]]. *)
Definition indeterminate (num_val den_val : expr) : bool :=
  existsb (fun p => expr_eqb num_val (fst p) && expr_eqb den_val (snd p))
          [(zero, zero); (oo, oo); (neg oo, neg oo)].

(** The [for i in range(max_iterations)] loop of [lhopital_rule] with [k]
    rounds left, and the final attempt after it. *)
Fixpoint lhopital_loop (k : nat) (i : Z) (num den var point : expr)
    (steps : list lh_step) : M (expr * list lh_step) :=
  match k with
  | O =>
      result <- engine EvLimit (sp_limit (div num den) var point DirDefault) ;;
      ret (result, steps)
  | S k' =>
      num_val <- engine EvLimit (sp_limit num var point DirDefault) ;;
      den_val <- engine EvLimit (sp_limit den var point DirDefault) ;;
      let steps := steps ++ [LhStep i num den num_val den_val] in
      if negb (indeterminate num_val den_val) then
        if negb (expr_eqb den_val zero) then ret (div num_val den_val, steps)
        else ret (oo, steps)
      else
        num <- engine EvDiff (sp_diff num var 1) ;;
        den <- engine EvDiff (sp_diff den var 1) ;;
        lhopital_loop k' (i + 1) num den var point steps
  end.

Definition lhopital_rule (numerator denominator : input) (var point : expr)
    (max_iterations : Z) : M (expr * list lh_step) :=
  numerator <- normalize numerator ;;
  denominator <- normalize denominator ;;
  lhopital_loop (Z.to_nat max_iterations) 0 numerator denominator var point [].

(** *** NumericalMethods *)

(** One entry of the record [newtons_method] returns. *)
Record newton_step : Type := NewtonStep {
  nw_iteration : Z;
  nw_x : float;
  nw_fx : float;
  nw_dfx : float
}.

(** The [for i in range(max_iterations)] loop of [newtons_method] with [k]
    rounds left, and the exit after it. *)
Fixpoint newton_loop (f df : callable) (tolerance : float) (k : nat) (i : Z)
    (xn : float) (iterations : list newton_step)
  : M (option float * list newton_step) :=
  match k with
  | O =>
      warn "Maximum iterations reached" ;;;
      ret (Some xn, iterations)
  | S k' =>
      fxn <- engine EvApply (apply_scalar f xn) ;;
      dfxn <- engine EvApply (apply_scalar df xn) ;;
      let iterations := iterations ++ [NewtonStep i xn fxn dfxn] in
      if (abs fxn <? tolerance)%float then ret (Some xn, iterations)
      else if (abs dfxn <? 1e-15)%float then
        warn "Derivative near zero, Newton's method may fail" ;;;
        ret (None, iterations)
      else
        q <- python (truediv fxn dfxn) ;;
        newton_loop f df tolerance k' (i + 1) (xn - q)%float iterations
  end.

Definition newtons_method (func : input) (initial_guess : float) (var : expr)
    (tolerance : float) (max_iterations : Z)
  : M (option float * list newton_step) :=
  func <- normalize func ;;
  f <- engine EvLambdify (lambdify var func) ;;
  d <- engine EvDiff (sp_diff func var 1) ;;
  df <- engine EvLambdify (lambdify var d) ;;
  newton_loop f df tolerance (Z.to_nat max_iterations) 0 initial_guess [].

(** [np.sum(y)]: the sum of an array, and a single number as it is. *)
Definition nd_sum (y : ndvalue) : float :=
  match y with
  | NdArray ys => np_sum ys
  | NdScalar s => scalar_float s
  end.

(** [np.sum(f(x_vals) * dx)] over the grid [np.linspace(start, stop, num)]. *)
Definition sum_on_grid (f : callable) (start stop : float) (num : Z)
    (dx : float) : M (option float) :=
  x_vals <- engine (EvLinspace num) (np_linspace start stop num) ;;
  y_vals <- engine EvApply (apply_array f x_vals) ;;
  s <- engine EvSum (Ok (nd_sum (nd_scale y_vals dx))) ;;
  ret (Some s).

(** The result is [None] when the function falls off its last [elif]. *)
Definition riemann_sum (func : input) (lower upper : float) (n : Z)
    (method : string) (var : expr) : M (option float) :=
  func <- normalize func ;;
  f <- engine EvLambdify (lambdify var func) ;;
  dx <- python (truediv_int (upper - lower)%float n) ;;
  if (method =? "left")%string then
    sum_on_grid f lower (upper - dx)%float n dx
  else if (method =? "right")%string then
    sum_on_grid f (lower + dx)%float upper n dx
  else if (method =? "midpoint")%string then
    sum_on_grid f (lower + dx / 2)%float (upper - dx / 2)%float n dx
  else if (method =? "trapezoid")%string then
    x_vals <- engine (EvLinspace (n + 1)) (np_linspace lower upper (n + 1)) ;;
    y_vals <- engine EvApply (apply_array f x_vals) ;;
    s <- engine EvSum (Ok (nd_sum y_vals)) ;;
    y0 <- python (nd_getitem_first y_vals) ;;
    yn <- python (nd_getitem_last y_vals) ;;
    ret (Some (dx * (s - (y0 + yn) / 2))%float)
  else ret None.

Definition simpsons_rule (func : input) (lower upper : float) (n : Z)
    (var : expr) : M float :=
  if negb (n mod 2 =? 0)%Z then
    raise (ValueError "n must be even for Simpson's rule")
  else
    func <- normalize func ;;
    f <- engine EvLambdify (lambdify var func) ;;
    h <- python (truediv_int (upper - lower)%float n) ;;
    x_vals <- engine (EvLinspace (n + 1)) (np_linspace lower upper (n + 1)) ;;
    y_vals <- engine EvApply (apply_array f x_vals) ;;
    y0 <- python (nd_getitem_first y_vals) ;;
    yn <- python (nd_getitem_last y_vals) ;;
    let result := (y0 + yn)%float in
    odd <- python (nd_slice_step2 1 y_vals) ;;
    s_odd <- engine EvSum (Ok (np_sum odd)) ;;
    let result := (result + 4 * s_odd)%float in
    even <- python (nd_slice_step2 2 y_vals) ;;
    s_even <- engine EvSum (Ok (np_sum even)) ;;
    let result := (result + 2 * s_even)%float in
    ret (result * (h / 3))%float.

(** The approximation the loop of [newtons_method] moves to from [xn], when
    the round at [xn] evaluates, neither converges nor finds the derivative
    near zero. *)
Definition newton_next (f df : callable) (tolerance xn : float) : option float :=
  match apply_scalar f xn, apply_scalar df xn with
  | Ok fxn, Ok dfxn =>
      if (abs fxn <? tolerance)%float then None
      else if (abs dfxn <? 1e-15)%float then None
      else Some (xn - fxn / dfxn)%float
  | _, _ => None
  end.

(** The approximation at the start of round [i], when the loop gets there. *)
Fixpoint newton_iterate (f df : callable) (tolerance : float) (i : nat)
    (x0 : float) : option float :=
  match i with
  | O => Some x0
  | S i' =>
      match newton_next f df tolerance x0 with
      | Some x1 => newton_iterate f df tolerance i' x1
      | None => None
      end
  end.

(** The entries the loop records in its first [j] rounds, numbered from
    [i], when each of those rounds moves on. *)
Fixpoint newton_records (f df : callable) (j : nat) (i : Z) (xn : float)
  : list newton_step :=
  match j with
  | O => []
  | S j' =>
      match apply_scalar f xn, apply_scalar df xn with
      | Ok fxn, Ok dfxn =>
          NewtonStep i xn fxn dfxn
            :: newton_records f df j' (i + 1) (xn - fxn / dfxn)%float
      | _, _ => []
      end
  end.

(** *** Convenience functions *)

Definition derivative (f : input) (var : expr) (order : Z) : M expr :=
  compute_derivative f var order.

Definition integrate (f : input) (var : expr) (lower upper : option expr)
  : M expr :=
  match lower, upper with
  | Some lo, Some hi => definite_integral f var lo hi
  | _, _ => indefinite_integral f var
  end.

Definition limit (f : input) (var point : expr) (dir : option string) : M expr :=
  compute_limit f var point dir.

Definition tangent (func : input) (point var : expr) : M (expr * expr * expr) :=
  tangent_line func point var.

End Wrappers.

(** ** A reference engine

    A small engine over expressions built from integers and symbols with
    sums, products, quotients and square roots, used to run the wrappers on
    concrete inputs.  It covers a fragment of what SymPy and
    NumPy do: atoms are parsed, sums, products and quotients are built with
    the usual automatic evaluation of numbers, and limits are taken by
    substitution where that gives a number. *)
Module Reference.

Inductive rexpr : Type :=
| RNum (z : Z)
| RSym (name : string)
| RAdd (a b : rexpr)
| RMul (a b : rexpr)
| RDiv (a b : rexpr)
| RSqrt (a : rexpr)
| ROo
| RNegOo
| RNan
| RZoo.

Fixpoint rexpr_eqb (a b : rexpr) : bool :=
  match a, b with
  | RNum x, RNum y => (x =? y)%Z
  | RSym s, RSym t => (s =? t)%string
  | RAdd a1 a2, RAdd b1 b2 => rexpr_eqb a1 b1 && rexpr_eqb a2 b2
  | RMul a1 a2, RMul b1 b2 => rexpr_eqb a1 b1 && rexpr_eqb a2 b2
  | RDiv a1 a2, RDiv b1 b2 => rexpr_eqb a1 b1 && rexpr_eqb a2 b2
  | RSqrt a1, RSqrt b1 => rexpr_eqb a1 b1
  | ROo, ROo | RNegOo, RNegOo | RNan, RNan | RZoo, RZoo => true
  | _, _ => false
  end.

Definition radd (a b : rexpr) : rexpr :=
  match a, b with
  | RNum x, RNum y => RNum (x + y)
  | RNum 0, _ => b
  | _, RNum 0 => a
  | _, _ => RAdd a b
  end.

(** [oo], [-oo], [zoo] and [nan]: what is not a finite quantity. *)
Definition is_unbounded (e : rexpr) : bool :=
  match e with
  | ROo | RNegOo | RZoo | RNan => true
  | _ => false
  end.

(** A product with [0] is [0], except that [0 * oo], [0 * zoo] and
    [0 * nan] are [nan]. *)
Definition rmul (a b : rexpr) : rexpr :=
  match a, b with
  | RNum x, RNum y => RNum (x * y)
  | RNum 0, _ => if is_unbounded b then RNan else RNum 0
  | _, RNum 0 => if is_unbounded a then RNan else RNum 0
  | _, _ => RMul a b
  end.

Definition rneg (a : rexpr) : rexpr :=
  match a with
  | ROo => RNegOo
  | RNegOo => ROo
  | _ => rmul (RNum (-1)) a
  end.

Definition rsub (a b : rexpr) : rexpr :=
  if rexpr_eqb a b then RNum 0 else radd a (rneg b).

Definition rdiv (a b : rexpr) : rexpr :=
  match a, b with
  | RNum 0, RNum 0 => RNan
  | _, RNum 0 => RZoo
  | RNum x, RNum y => if (x mod y =? 0)%Z then RNum (x / y) else RDiv a b
  | _, RNum 1 => a
  | _, _ => RDiv a b
  end.

(** [sqrt(a)]: the root of a perfect square is taken. *)
Definition rsqrt (a : rexpr) : rexpr :=
  match a with
  | RNum z =>
      if (0 <=? z)%Z && (Z.sqrt z * Z.sqrt z =? z)%Z then RNum (Z.sqrt z)
      else RSqrt a
  | ROo => ROo
  | RZoo => RZoo
  | RNan => RNan
  | _ => RSqrt a
  end.

(** [e.subs(old, new)]: every occurrence of [old] is replaced and the
    expression is rebuilt. *)
Fixpoint rsubs (e old new : rexpr) : rexpr :=
  if rexpr_eqb e old then new
  else match e with
       | RAdd a b => radd (rsubs a old new) (rsubs b old new)
       | RMul a b => rmul (rsubs a old new) (rsubs b old new)
       | RDiv a b => rdiv (rsubs a old new) (rsubs b old new)
       | RSqrt a => rsqrt (rsubs a old new)
       | _ => e
       end.

(** The derivative with respect to the symbol [x]. *)
Fixpoint rdiff1 (e : rexpr) (x : string) : rexpr :=
  match e with
  | RSym s => if (s =? x)%string then RNum 1 else RNum 0
  | RAdd a b => radd (rdiff1 a x) (rdiff1 b x)
  | RMul a b => radd (rmul (rdiff1 a x) b) (rmul a (rdiff1 b x))
  | RDiv a b =>
      rdiv (rsub (rmul (rdiff1 a x) b) (rmul a (rdiff1 b x))) (rmul b b)
  | RSqrt a => rdiv (rdiff1 a x) (rmul (RNum 2) (RSqrt a))
  | _ => RNum 0
  end.

Definition rdiff (e var : rexpr) (order : Z) : result rexpr :=
  match var with
  | RSym x => Ok (Nat.iter (Z.to_nat order) (fun d => rdiff1 d x) e)
  | _ => Err "Can't calculate derivative wrt a non-symbol"
  end.

Definition is_number (e : rexpr) : bool :=
  match e with RNum _ => true | _ => false end.

Definition rlimit (e var point : rexpr) (dir : direction) : result rexpr :=
  let v := rsubs e var point in
  if is_number v then Ok v
  else Err "NotImplementedError: limit outside the polynomial fragment".

(** The antiderivative of a constant or a symbol. *)
Definition rintegrate (e var : rexpr) : result rexpr :=
  match e with
  | RNum _ => Ok (rmul e var)
  | RSym _ =>
      if rexpr_eqb e var then Ok (RDiv (RMul var var) (RNum 2))
      else Ok (rmul e var)
  | _ => Err "NotImplementedError: integral outside the fragment"
  end.

(** The integral of [nan] is [nan]; otherwise an integral between equal
    bounds is [0]. *)
Definition rintegrate_bounds (e var lower upper : rexpr) : result rexpr :=
  if rexpr_eqb e RNan then Ok RNan
  else if rexpr_eqb lower upper then Ok (RNum 0)
  else match rintegrate e var with
       | Ok F => Ok (rsub (rsubs F var upper) (rsubs F var lower))
       | Err msg => Err msg
       end.

Definition is_digit (c : Ascii.ascii) : bool :=
  let n := Ascii.nat_of_ascii c in (48 <=? n)%nat && (n <=? 57)%nat.

Definition is_letter (c : Ascii.ascii) : bool :=
  let n := Ascii.nat_of_ascii c in
  ((65 <=? n)%nat && (n <=? 90)%nat) || ((97 <=? n)%nat && (n <=? 122)%nat).

Fixpoint all_chars (p : Ascii.ascii -> bool) (s : string) : bool :=
  match s with
  | EmptyString => true
  | String c rest => p c && all_chars p rest
  end.

Fixpoint digits_value (acc : Z) (s : string) : Z :=
  match s with
  | EmptyString => acc
  | String c rest =>
      digits_value (10 * acc + Z.of_nat (Ascii.nat_of_ascii c - 48)) rest
  end.

(** Parsing: a decimal literal, one of the names [oo], [zoo] and [nan], or
    a symbol; anything else is refused. *)
Definition rsympify (s : string) : result rexpr :=
  match s with
  | EmptyString => Err "SympifyError: could not parse ''"
  | _ =>
      if all_chars is_digit s then Ok (RNum (digits_value 0 s))
      else if (s =? "oo")%string then Ok ROo
      else if (s =? "zoo")%string then Ok RZoo
      else if (s =? "nan")%string then Ok RNan
      else if all_chars is_letter s then Ok (RSym s)
      else Err ("SympifyError: could not parse '" ++ s ++ "'")
  end.

Fixpoint rstr (e : rexpr) : string :=
  match e with
  | RNum z => DecimalString.NilZero.string_of_int (Z.to_int z)
  | RSym s => s
  | RAdd a b => rstr a ++ " + " ++ rstr b
  | RMul a b => "(" ++ rstr a ++ ")*(" ++ rstr b ++ ")"
  | RDiv a b => "(" ++ rstr a ++ ")/(" ++ rstr b ++ ")"
  | RSqrt a => "sqrt(" ++ rstr a ++ ")"
  | ROo => "oo"
  | RNegOo => "-oo"
  | RNan => "nan"
  | RZoo => "zoo"
  end.

(** A lowered function: the expression and the name of its argument. *)
Definition rcallable : Type := (string * rexpr)%type.

Definition rlambdify (var e : rexpr) : result rcallable :=
  match var with
  | RSym x => Ok (x, e)
  | _ => Err "SyntaxError: the argument of a lambda must be a symbol"
  end.

(** The value of an expression at [x = v] in floating point.  A Python
    float divided by zero raises; in an array ([array = true]) NumPy gives
    an infinity or a nan instead. *)
Fixpoint reval (array : bool) (x : string) (v : float) (e : rexpr)
  : result float :=
  match e with
  | RNum z => Ok (float_of_int z)
  | RSym s => if (s =? x)%string then Ok v
              else Err ("NameError: name '" ++ s ++ "' is not defined")
  | RAdd a b =>
      match reval array x v a, reval array x v b with
      | Ok p, Ok q => Ok (p + q)%float
      | Err m, _ | _, Err m => Err m
      end
  | RMul a b =>
      match reval array x v a, reval array x v b with
      | Ok p, Ok q => Ok (p * q)%float
      | Err m, _ | _, Err m => Err m
      end
  | RDiv a b =>
      match reval array x v a, reval array x v b with
      | Ok p, Ok q =>
          if (q =? 0)%float && negb array
          then Err "ZeroDivisionError: float division by zero"
          else Ok (p / q)%float
      | Err m, _ | _, Err m => Err m
      end
  | RSqrt a =>
      match reval array x v a with
      | Ok p => Ok (PrimFloat.sqrt p)
      | Err m => Err m
      end
  | ROo => Ok infinity
  | RNegOo => Ok neg_infinity
  | RNan | RZoo => Ok PrimFloat.nan
  end.

Definition rapply_scalar (f : rcallable) (v : float) : result float :=
  reval false (fst f) v (snd f).

(** The values of a lowered function at the points of an array. *)
Fixpoint rmap (f : rcallable) (xs : list float) : result (list float) :=
  match xs with
  | [] => Ok []
  | v :: rest =>
      match reval true (fst f) v (snd f), rmap f rest with
      | Ok y, Ok ys => Ok (y :: ys)
      | Err m, _ | _, Err m => Err m
      end
  end.

(** Whether the symbol [x] occurs in an expression, and whether a square
    root does. *)
Fixpoint rmentions (x : string) (e : rexpr) : bool :=
  match e with
  | RSym s => (s =? x)%string
  | RAdd a b | RMul a b | RDiv a b => rmentions x a || rmentions x b
  | RSqrt a => rmentions x a
  | _ => false
  end.

Fixpoint has_sqrt (e : rexpr) : bool :=
  match e with
  | RAdd a b | RMul a b | RDiv a b => has_sqrt a || has_sqrt b
  | RSqrt _ => true
  | _ => false
  end.

(** A lowered function applied to an array: an array of values when the
    expression mentions the argument.  The code generated for a constant
    ignores the array and computes the constant: a Python int for an
    integer, a NumPy scalar where NumPy's [sqrt] takes part, a Python float
    otherwise. *)
Definition rapply_array (f : rcallable) (xs : list float) : result ndvalue :=
  if rmentions (fst f) (snd f) then
    match rmap f xs with
    | Ok ys => Ok (NdArray ys)
    | Err m => Err m
    end
  else
    match snd f with
    | RNum z => Ok (NdScalar (PyInt z))
    | e =>
        match reval false (fst f) 0%float e with
        | Ok v => Ok (NdScalar (if has_sqrt e then NpFloat v else PyFloat v))
        | Err m => Err m
        end
    end.

(** [start + i * step] for [i = first, first + 1, ...], [count] of them. *)
Fixpoint grid (start step : float) (first : Z) (count : nat) : list float :=
  match count with
  | O => []
  | S c => (start + float_of_int first * step)%float
             :: grid start step (first + 1) c
  end.

Definition rlinspace (start stop : float) (num : Z) : result (list float) :=
  if (num <? 0)%Z then
    Err ("ValueError: Number of samples, "
         ++ DecimalString.NilZero.string_of_int (Z.to_int num)
         ++ ", must be non-negative.")
  else if (num =? 0)%Z then Ok []
  else if (num =? 1)%Z then Ok [start]
  else
    let step := ((stop - start) / float_of_int (num - 1))%float in
    Ok (grid start step 0 (Z.to_nat (num - 1)) ++ [stop]).

Definition rsum (ys : list float) : float :=
  fold_left PrimFloat.add ys 0%float.

#[export] Instance reference_engine : Engine := {|
  expr := rexpr;
  callable := rcallable;
  zero := RNum 0;
  oo := ROo;
  nan := RNan;
  zoo := RZoo;
  neg := rneg;
  add := radd;
  sub := rsub;
  mul := rmul;
  div := rdiv;
  expr_eqb := rexpr_eqb;
  str := rstr;
  sympify := rsympify;
  sp_diff := rdiff;
  subs := fun e old new => Ok (rsubs e old new);
  sp_limit := rlimit;
  simplify := fun e => Ok e;
  sp_integrate := rintegrate;
  sp_integrate_bounds := rintegrate_bounds;
  lambdify := rlambdify;
  apply_scalar := rapply_scalar;
  apply_array := rapply_array;
  np_linspace := rlinspace;
  np_sum := rsum
|}.

(** The symbol [x] of the module. *)
Definition x : rexpr := RSym "x".

End Reference.

(** The wrappers' inputs and records over the reference engine. *)
Abbreviation ref := Reference.reference_engine.
Abbreviation RefSym := (@Sym Reference.reference_engine).
Abbreviation RefLhStep := (@LhStep Reference.reference_engine).

(** ** More of the module *)

(** The Python ints the module mixes into expressions ([-1 / slope]). *)
Class EngineInt (E : Engine) : Type := {
  of_int : Z -> expr
}.

Section MoreWrappers.
Context {E : Engine} {I : EngineInt E}.

(** [normal_line]: the normal is [None] when the slope is [0]. *)
Definition normal_line (func : input) (point var : expr)
  : M (option expr * expr) :=
  func <- normalize func ;;
  d <- engine EvDiff (sp_diff func var 1) ;;
  slope <- engine EvSubs (subs d var point) ;;
  y_val <- engine EvSubs (subs func var point) ;;
  if negb (expr_eqb slope zero) then
    let normal_slope := div (of_int (-1)) slope in
    let normal := add (mul normal_slope (sub var point)) y_val in
    ret (Some normal, y_val)
  else
    ret (None, y_val).

(** The pair [lhopital_rule] differentiates to from [(num, den)], when the
    round on that pair evaluates and finds it indeterminate. *)
Definition lh_next (num den var point : expr) : option (expr * expr) :=
  match sp_limit num var point DirDefault, sp_limit den var point DirDefault with
  | Ok num_val, Ok den_val =>
      if indeterminate num_val den_val then
        match sp_diff num var 1, sp_diff den var 1 with
        | Ok num', Ok den' => Some (num', den')
        | _, _ => None
        end
      else None
  | _, _ => None
  end.

(** The pair at the start of round [j], when the loop gets there. *)
Fixpoint lh_iterate (j : nat) (num den var point : expr)
  : option (expr * expr) :=
  match j with
  | O => Some (num, den)
  | S j' =>
      match lh_next num den var point with
      | Some (num', den') => lh_iterate j' num' den' var point
      | None => None
      end
  end.

(** The entries of the first [j] rounds, numbered from [i], when each of
    them is indeterminate. *)
Fixpoint lh_records (j : nat) (i : Z) (num den var point : expr)
  : list lh_step :=
  match j with
  | O => []
  | S j' =>
      match sp_limit num var point DirDefault,
            sp_limit den var point DirDefault,
            sp_diff num var 1, sp_diff den var 1 with
      | Ok num_val, Ok den_val, Ok num', Ok den' =>
          LhStep i num den num_val den_val
            :: lh_records j' (i + 1) num' den' var point
      | _, _, _, _ => []
      end
  end.

(** An entry that records an indeterminate pair. *)
Definition lh_indeterminate (st : lh_step) : bool :=
  indeterminate (lh_num_limit st) (lh_den_limit st).

End MoreWrappers.

#[export] Instance reference_engine_int : EngineInt Reference.reference_engine :=
  {| of_int := (Reference.RNum : Z -> expr (Engine := Reference.reference_engine)) |}.

(** * Properties *)

Unset Implicit Arguments.

(** ** The monad *)

Lemma bind_Ret {A B} (t : list event) (a : A) (k : A -> M B) :
  bind (t, Ret a) k = (t ++ trace (k a), outcome (k a)).
Proof. unfold bind, trace, outcome. destruct (k a); reflexivity. Qed.

Lemma outcome_bind {A B} (m : M A) (k : A -> M B) (a : A) :
  outcome m = Ret a -> outcome (bind m k) = outcome (k a).
Proof.
  destruct m as [t r]; unfold outcome at 1; cbn [snd]; intros ->.
  rewrite bind_Ret. reflexivity.
Qed.

Lemma trace_bind {A B} (m : M A) (k : A -> M B) (a : A) :
  outcome m = Ret a -> trace (bind m k) = trace m ++ trace (k a).
Proof.
  destruct m as [t r]; unfold outcome at 1; cbn [snd]; intros ->.
  rewrite bind_Ret. reflexivity.
Qed.

Lemma outcome_bind_raise {A B} (m : M A) (k : A -> M B) (e : exn) :
  outcome m = Raise e -> outcome (bind m k) = Raise e.
Proof. destruct m as [t r]; simpl; intros ->. reflexivity. Qed.

Lemma outcome_try_ret {A} (m : M A) (h : exn -> M A) (a : A) :
  outcome m = Ret a -> outcome (try_except m h) = Ret a.
Proof. destruct m as [t r]; simpl; intros ->. reflexivity. Qed.

Lemma outcome_try_raise {A} (m : M A) (h : exn -> M A) (e : exn) :
  outcome m = Raise e -> outcome (try_except m h) = outcome (h e).
Proof.
  destruct m as [t r]; unfold outcome at 1; cbn [snd]; intros ->.
  unfold try_except, outcome. destruct (h e); reflexivity.
Qed.

(** What [normalize] logs does not depend on whether the parse succeeds. *)
Lemma normalize_no_evaluation {E : Engine} (func : input) :
  filter is_evaluation (trace (normalize func)) = []
  /\ filter is_warning (trace (normalize func)) = [].
Proof. destruct func; split; reflexivity. Qed.

Lemma normalize_raises {E : Engine} (func : input) (ex : exn) :
  outcome (normalize func) = Raise ex -> exists msg, ex = EngineError msg.
Proof.
  destruct func as [s | e]; cbn; [destruct (sympify s) |]; intros [=].
  eauto.
Qed.

(** ** Python floats *)

Lemma SFcompare_antisym (a b : spec_float) (c : comparison) :
  SFcompare a b = Some c -> SFcompare b a = Some (CompOpp c).
Proof.
  destruct a as [sa | sa | | sa ma ea], b as [sb | sb | | sb mb eb];
    simpl; try discriminate;
    try (destruct sa; intros [= <-]; reflexivity);
    try (destruct sb; intros [= <-]; reflexivity);
    try (destruct sa, sb; intros [= <-]; reflexivity).
  assert (Hm : PosDef.Pos.compare_cont Eq ma mb
               = CompOpp (PosDef.Pos.compare_cont Eq mb ma)) by exact (ZC4 ma mb).
  destruct sa, sb; try (intros [= <-]; reflexivity);
    rewrite (Z.compare_antisym ea eb);
    destruct (ea ?= eb)%Z; simpl; intros [= <-]; try reflexivity;
    rewrite Hm, ?CompOpp_involutive; reflexivity.
Qed.

(** [a <= b] excludes [b < a] (both are false on a NaN). *)
Lemma float_le_not_lt (a b : float) :
  (a <=? b)%float = true -> (b <? a)%float = false.
Proof.
  rewrite leb_spec, ltb_spec. unfold SFleb, SFltb.
  destruct (SFcompare (Prim2SF a) (Prim2SF b)) as [c|] eqn:H; try discriminate.
  rewrite (SFcompare_antisym _ _ _ H).
  destruct c; simpl; congruence.
Qed.

(** A derivative value that passes the near-zero test is not zero, so the
    division of the Newton update cannot raise. *)
Lemma float_not_small_nonzero (d : float) :
  (abs d <? 1e-15)%float = false -> (d =? 0)%float = false.
Proof.
  rewrite ltb_spec, eqb_spec, abs_spec.
  destruct (Prim2SF d) as [s | s | | s m e]; simpl; try reflexivity.
  all: try (destruct s; reflexivity).
  all: vm_compute; discriminate.
Qed.

Lemma truediv_guarded (a d : float) :
  (abs d <? 1e-15)%float = false -> truediv a d = Ret (a / d)%float.
Proof.
  intros H. unfold truediv. rewrite (float_not_small_nonzero _ H). reflexivity.
Qed.

(** ** check_continuity *)

Section Continuity.
Context {E : Engine}.

(** C1, as amended: once [func] is an expression, or a text that parses,
    [check_continuity] never lets an exception through: it returns a pair,
    whatever the [try] block returns is returned as it is, and whatever the
    block raises becomes [(False, "Error checking continuity: ...")].  The
    parse itself is outside the block: when it raises, the exception reaches
    the caller. *)
Theorem check_continuity_fails_closed (func : input) (var point : expr) :
  (forall e, outcome (normalize func) = Ret e ->
     (exists b reason,
        outcome (check_continuity func var point) = Ret (b, reason))
     /\ (forall v, outcome (continuity_checks e var point) = Ret v ->
           outcome (check_continuity func var point) = Ret v)
     /\ (forall ex, outcome (continuity_checks e var point) = Raise ex ->
           outcome (check_continuity func var point)
           = Ret (false, "Error checking continuity: " ++ exn_str ex)%string))
  /\ (forall ex, outcome (normalize func) = Raise ex ->
        outcome (check_continuity func var point) = Raise ex).
Proof.
  unfold check_continuity. split.
  - intros e He. rewrite (outcome_bind _ _ _ He).
    assert (Hexn : forall ex,
              outcome (continuity_checks e var point) = Raise ex ->
              outcome (try_except (continuity_checks e var point)
                         (fun e0 => ret (false,
                            "Error checking continuity: " ++ exn_str e0)%string))
              = Ret (false, "Error checking continuity: " ++ exn_str ex)%string).
    { intros ex Hex. now rewrite (outcome_try_raise _ _ _ Hex). }
    split; [| split]; [| intros v Hv; now apply outcome_try_ret | exact Hexn].
    destruct (outcome (continuity_checks e var point))
      as [[b reason] | ex] eqn:Hc.
    + exists b, reason. now apply outcome_try_ret.
    + eexists _, _. now apply Hexn.
  - intros ex Hex. now apply outcome_bind_raise.
Qed.

End Continuity.

(** The call of the theorem on the text ["x"], which parses: continuity of
    [x] at [0]. *)
Lemma check_continuity_fails_closed_witness :
  exists b reason,
    outcome (check_continuity (E := Reference.reference_engine)
               (Text "x") Reference.x (Reference.RNum 0))
    = Ret (b, reason).
Proof.
  exact (proj1 (proj1 (check_continuity_fails_closed
                         (E := Reference.reference_engine)
                         (Text "x") Reference.x (Reference.RNum 0))
                      Reference.x eq_refl)).
Defined.

(** C1 as stated fails: the text ["("] does not parse, and the parse error
    leaves [check_continuity] as an exception; no pair is returned. *)
Lemma check_continuity_parse_error_propagates :
  check_continuity (E := Reference.reference_engine)
    (Text "(") Reference.x (Reference.RNum 0)
  = ([EvSympify "("], Raise (EngineError "SympifyError: could not parse '('"))
  /\ ~ (exists b reason,
          outcome (check_continuity (E := Reference.reference_engine)
                     (Text "(") Reference.x (Reference.RNum 0))
          = Ret (b, reason)).
Proof.
  split; [reflexivity |].
  intros (b & reason & H). vm_compute in H. discriminate.
Qed.

(** ** integrate *)

(** C10: [integrate] is the definite integral exactly when both bounds are
    given; with one bound only it is the indefinite integral of the same
    expression, whatever the bound is, and nothing says so. *)
Theorem integrate_needs_both_bounds {E : Engine} (f : input) (var : expr) :
  (forall lo hi,
     integrate f var (Some lo) (Some hi) = definite_integral f var lo hi)
  /\ (forall lo, integrate f var (Some lo) None = indefinite_integral f var)
  /\ (forall hi, integrate f var None (Some hi) = indefinite_integral f var)
  /\ integrate f var None None = indefinite_integral f var
  /\ warnings (indefinite_integral f var) = [].
Proof.
  repeat split.
  unfold warnings, indefinite_integral.
  destruct f as [s | e]; simpl; [destruct (sympify s) |]; reflexivity.
Qed.

(** ** lhopital_rule *)

Section LHopital.
Context {E : Engine}.

(** C6: when the first pair of limits is not one of the three indeterminate
    pairs, [lhopital_rule] stops there: it returns the quotient of the two
    limits, or [oo] when the limit of the denominator is [0], and the record
    holds that one evaluation. *)
Theorem lhopital_rule_determinate (numerator denominator : input)
    (var point : expr) (max_iterations : Z) (num den num_val den_val : expr) :
  outcome (normalize numerator) = Ret num ->
  outcome (normalize denominator) = Ret den ->
  (1 <= max_iterations)%Z ->
  sp_limit num var point DirDefault = Ok num_val ->
  sp_limit den var point DirDefault = Ok den_val ->
  indeterminate num_val den_val = false ->
  outcome (lhopital_rule numerator denominator var point max_iterations)
  = Ret (if negb (expr_eqb den_val zero) then div num_val den_val else oo,
         [LhStep 0 num den num_val den_val]).
Proof.
  intros Hn Hd Hmax Hnum Hden Hind. unfold lhopital_rule.
  rewrite (outcome_bind _ _ _ Hn), (outcome_bind _ _ _ Hd).
  destruct (Z.to_nat max_iterations) as [| k] eqn:Hk; [lia |].
  cbn [lhopital_loop]. unfold engine. rewrite Hnum, Hden.
  rewrite !bind_Ret. cbn [outcome snd app]. rewrite Hind. cbn [negb].
  destruct (expr_eqb den_val zero); reflexivity.
Qed.

End LHopital.

(** The theorem on [(x + 6) / (x + 3)] at [0]: the limits are [6] and [3]. *)
Lemma lhopital_rule_determinate_witness :
  outcome (lhopital_rule (E := Reference.reference_engine)
             (RefSym (Reference.RAdd Reference.x (Reference.RNum 6)))
             (RefSym (Reference.RAdd Reference.x (Reference.RNum 3)))
             Reference.x (Reference.RNum 0) 5)
  = Ret (Reference.RNum 2,
         [RefLhStep 0 (Reference.RAdd Reference.x (Reference.RNum 6))
                   (Reference.RAdd Reference.x (Reference.RNum 3))
                   (Reference.RNum 6) (Reference.RNum 3)]).
Proof.
  apply (lhopital_rule_determinate (E := Reference.reference_engine)
           (RefSym (Reference.RAdd Reference.x (Reference.RNum 6)))
           (RefSym (Reference.RAdd Reference.x (Reference.RNum 3)))
           Reference.x (Reference.RNum 0) 5
           (Reference.RAdd Reference.x (Reference.RNum 6))
           (Reference.RAdd Reference.x (Reference.RNum 3))
           (Reference.RNum 6) (Reference.RNum 3));
    first [reflexivity | lia].
Defined.

(** ** Stepping through a wrapper *)

Lemma outcome_bind_case {A B} (m : M A) (k : A -> M B) :
  outcome (bind m k)
  = match outcome m with Ret a => outcome (k a) | Raise e => Raise e end.
Proof.
  destruct m as [t [a | e]]; [rewrite bind_Ret |]; reflexivity.
Qed.

Lemma trace_bind_case {A B} (m : M A) (k : A -> M B) :
  trace (bind m k)
  = trace m ++ match outcome m with Ret a => trace (k a) | Raise _ => [] end.
Proof.
  destruct m as [t [a | e]]; [rewrite bind_Ret; reflexivity |].
  cbn. now rewrite app_nil_r.
Qed.

Lemma outcome_engine {A} (ev : event) (r : result A) :
  outcome (engine ev r)
  = match r with Ok a => Ret a | Err msg => Raise (EngineError msg) end.
Proof. reflexivity. Qed.

Lemma trace_engine {A} (ev : event) (r : result A) : trace (engine ev r) = [ev].
Proof. reflexivity. Qed.

(** ** definite_integral *)

Section DefiniteIntegral.
Context {E : Engine}.


End DefiniteIntegral.



(** ** riemann_sum and simpsons_rule *)

Lemma truediv_int_nonzero (a : float) (n : Z) :
  n <> 0%Z -> truediv_int a n = Ret (a / float_of_int n)%float.
Proof.
  intros H. unfold truediv_int. now rewrite (proj2 (Z.eqb_neq n 0) H).
Qed.

Section RiemannSum.
Context {E : Engine}.


End RiemannSum.


Section Partitions.
Context {E : Engine}.

(** What NumPy guarantees about the arrays involved: [linspace] refuses a
    negative number of samples and returns as many samples as asked, and a
    lowered function that returns an array returns one value per sample. *)
Hypothesis linspace_negative :
  forall a b num, (num < 0)%Z -> exists msg, np_linspace a b num = Err msg.
Hypothesis linspace_length :
  forall a b num xs, np_linspace a b num = Ok xs -> List.length xs = Z.to_nat num.
Hypothesis apply_array_length :
  forall f xs ys,
    apply_array f xs = Ok (NdArray ys) -> List.length ys = List.length xs.

Lemma sum_on_grid_negative (f : callable) (a b : float) (n : Z) (dx : float)
    (v : option float) :
  (n < 0)%Z -> outcome (sum_on_grid f a b n dx) <> Ret v.
Proof.
  intros Hn. unfold sum_on_grid.
  destruct (linspace_negative a b n Hn) as [msg ->]. discriminate.
Qed.

(** C2, as amended: [riemann_sum] has no check on [n].  With [n = 0] the
    expression is parsed and lowered as usual and the step width is then
    computed, where Python's division raises ZeroDivisionError; that is what
    the caller gets, not an error of the module's own, and no grid is built
    and nothing is returned.  A sum is returned only for [n >= 1]. *)
Theorem riemann_sum_zero_partitions (func : input) (lower upper : float)
    (method : string) (var : expr) :
  (forall v, outcome (riemann_sum func lower upper 0 method var) <> Ret v)
  /\ (forall msg, outcome (riemann_sum func lower upper 0 method var)
                  <> Raise (ValueError msg))
  /\ filter is_evaluation (trace (riemann_sum func lower upper 0 method var)) = []
  /\ (forall e f, outcome (normalize func) = Ret e -> lambdify var e = Ok f ->
        outcome (riemann_sum func lower upper 0 method var)
        = Raise (ZeroDivisionError "float division by zero"))
  /\ (forall n v,
        outcome (riemann_sum func lower upper n method var) = Ret (Some v) ->
        (1 <= n)%Z).
Proof.
  assert (Hzero : forall v,
            outcome (riemann_sum func lower upper 0 method var) <> Ret v).
  { intros v. unfold riemann_sum.
    destruct func as [s | e]; cbn; [destruct (sympify s) as [e |]; cbn |];
      try discriminate; destruct (lambdify var e); discriminate. }
  split; [exact Hzero |]. split; [| split; [| split]].
  - intros msg. unfold riemann_sum.
    destruct func as [s | e]; cbn; [destruct (sympify s) as [e |]; cbn |];
      try discriminate; destruct (lambdify var e); discriminate.
  - unfold riemann_sum.
    destruct func as [s | e]; cbn; [destruct (sympify s) as [e |]; cbn |];
      try reflexivity; destruct (lambdify var e); reflexivity.
  - intros e f He Hf. unfold riemann_sum.
    rewrite (outcome_bind _ _ _ He), outcome_bind_case, outcome_engine, Hf.
    reflexivity.
  - intros n v H. destruct (Z_lt_le_dec n 1) as [Hlt | Hle]; [exfalso | exact Hle].
    destruct (Z.eq_dec n 0) as [-> | Hn0]; [exact (Hzero _ H) |].
    assert (Hneg : (n < 0)%Z) by lia.
    unfold riemann_sum in H. rewrite truediv_int_nonzero in H by exact Hn0.
    rewrite outcome_bind_case in H.
    destruct (outcome (normalize func)) as [e |]; [| discriminate].
    rewrite outcome_bind_case, outcome_engine in H.
    destruct (lambdify var e) as [f |]; [| discriminate].
    rewrite outcome_bind_case in H. cbn [python outcome snd] in H.
    destruct (method =? "left")%string;
      [exact (sum_on_grid_negative _ _ _ _ _ _ Hneg H) |].
    destruct (method =? "right")%string;
      [exact (sum_on_grid_negative _ _ _ _ _ _ Hneg H) |].
    destruct (method =? "midpoint")%string;
      [exact (sum_on_grid_negative _ _ _ _ _ _ Hneg H) |].
    destruct (method =? "trapezoid")%string; [| discriminate].
    rewrite outcome_bind_case, outcome_engine in H.
    destruct (np_linspace lower upper (n + 1)) as [xs |] eqn:Hxs;
      [| discriminate].
    apply linspace_length in Hxs.
    rewrite outcome_bind_case, outcome_engine in H.
    destruct (apply_array f xs) as [[ys | c] |] eqn:Hys;
      [| discriminate | discriminate].
    apply apply_array_length in Hys.
    destruct ys as [| y ys]; [discriminate H |].
    cbn in Hys. lia.
Qed.


End Partitions.

(** The reference engine keeps NumPy's guarantees. *)
Lemma reference_linspace_negative (a b : float) (num : Z) :
  (num < 0)%Z -> exists msg, np_linspace (Engine := ref) a b num = Err msg.
Proof.
  intros H. cbn. unfold Reference.rlinspace.
  rewrite (proj2 (Z.ltb_lt num 0) H). eauto.
Qed.

Lemma reference_grid_length (start step : float) (count : nat) (first : Z) :
  List.length (Reference.grid start step first count) = count.
Proof.
  revert first. induction count as [| c IH]; intros first; cbn; auto.
Qed.

Lemma reference_linspace_length (a b : float) (num : Z) (xs : list float) :
  np_linspace (Engine := ref) a b num = Ok xs -> List.length xs = Z.to_nat num.
Proof.
  cbn. unfold Reference.rlinspace.
  destruct (num <? 0)%Z eqn:Hneg; [discriminate |].
  destruct (num =? 0)%Z eqn:H0; [intros [= <-]; apply Z.eqb_eq in H0; now subst |].
  destruct (num =? 1)%Z eqn:H1; [intros [= <-]; apply Z.eqb_eq in H1; now subst |].
  intros [= <-]. rewrite length_app, reference_grid_length. cbn.
  apply Z.ltb_ge in Hneg. apply Z.eqb_neq in H0. lia.
Qed.

Lemma reference_map_length (f : Reference.rcallable) (xs ys : list float) :
  Reference.rmap f xs = Ok ys -> List.length ys = List.length xs.
Proof.
  revert ys. induction xs as [| v xs IH]; intros ys; cbn.
  - now intros [= <-].
  - destruct (Reference.reval true (fst f) v (snd f)); [| discriminate].
    destruct (Reference.rmap f xs) as [ys' |]; [| discriminate].
    intros [= <-]. cbn. now rewrite (IH ys').
Qed.

Lemma reference_apply_array_length (f : Reference.rcallable)
    (xs ys : list float) :
  apply_array (Engine := ref) f xs = Ok (NdArray ys) ->
  List.length ys = List.length xs.
Proof.
  cbn. unfold Reference.rapply_array.
  destruct (Reference.rmentions (fst f) (snd f)).
  - destruct (Reference.rmap f xs) as [ys' |] eqn:Hmap; [| discriminate].
    intros [= <-]. exact (reference_map_length _ _ _ Hmap).
  - destruct (snd f); try discriminate;
      destruct (Reference.reval _ _ _ _); try discriminate;
      destruct (Reference.has_sqrt _); discriminate.
Qed.

(** The theorem on [riemann_sum(x, 0, 1, 0, "midpoint")]: the division is
    what fails. *)
Lemma riemann_sum_zero_partitions_witness :
  outcome (riemann_sum (E := ref) (RefSym Reference.x) 0 1 0 "midpoint"
             Reference.x)
  = Raise (ZeroDivisionError "float division by zero").
Proof.
  refine (proj1 (proj2 (proj2 (proj2
            (riemann_sum_zero_partitions (E := ref)
               reference_linspace_negative reference_linspace_length
               reference_apply_array_length
               (RefSym Reference.x) 0 1 "midpoint" Reference.x))))
            Reference.x (("x"%string, Reference.x) : callable (Engine := ref))
            eq_refl eq_refl).
Defined.

(** C2 as stated fails: [riemann_sum(x, 0, 1, 0)] is not turned down by a
    check.  The expression is lowered first, and the error the caller sees
    is the ZeroDivisionError of the division itself, not an error raised by
    the module. *)
Lemma riemann_sum_zero_divides :
  riemann_sum (E := ref) (RefSym Reference.x) 0 1 0 "midpoint" Reference.x
  = ([EvLambdify], Raise (ZeroDivisionError "float division by zero"))
  /\ (forall msg,
        outcome (riemann_sum (E := ref) (RefSym Reference.x) 0 1 0 "midpoint"
                   Reference.x)
        <> Raise (ValueError msg)).
Proof. split; [reflexivity | discriminate]. Qed.



(** ** newtons_method *)

Section Newton.
Context {E : Engine}.
Variables (f df : callable) (tolerance : float).

(** What a round that moves on has seen. *)
Lemma newton_next_inv (xn x1 : float) :
  newton_next f df tolerance xn = Some x1 ->
  exists fxn dfxn,
    apply_scalar f xn = Ok fxn /\ apply_scalar df xn = Ok dfxn
    /\ (abs fxn <? tolerance)%float = false
    /\ (abs dfxn <? 1e-15)%float = false
    /\ x1 = (xn - fxn / dfxn)%float.
Proof.
  unfold newton_next.
  destruct (apply_scalar f xn) as [fxn |]; [| discriminate].
  destruct (apply_scalar df xn) as [dfxn |]; [| discriminate].
  destruct (abs fxn <? tolerance)%float eqn:Hconv; [discriminate |].
  destruct (abs dfxn <? 1e-15)%float eqn:Hdeg; [discriminate |].
  intros [= <-]. exists fxn, dfxn. repeat split; assumption.
Qed.

(** One round that moves on. *)
Lemma newton_loop_step (k : nat) (i : Z) (xn x1 : float)
    (iterations : list newton_step) :
  newton_next f df tolerance xn = Some x1 ->
  exists fxn dfxn,
    apply_scalar f xn = Ok fxn /\ apply_scalar df xn = Ok dfxn
    /\ x1 = (xn - fxn / dfxn)%float
    /\ newton_loop f df tolerance (S k) i xn iterations
       = ([EvApply; EvApply]
            ++ trace (newton_loop f df tolerance k (i + 1) x1
                        (iterations ++ [NewtonStep i xn fxn dfxn])),
          outcome (newton_loop f df tolerance k (i + 1) x1
                     (iterations ++ [NewtonStep i xn fxn dfxn]))).
Proof.
  intros H. destruct (newton_next_inv _ _ H)
    as (fxn & dfxn & Hf & Hdf & Hconv & Hdeg & ->).
  exists fxn, dfxn. repeat split; try assumption.
  cbn [newton_loop]. unfold engine, python. rewrite Hf, Hdf.
  rewrite !bind_Ret. cbn [outcome trace fst snd].
  rewrite Hconv, Hdeg, (truediv_guarded _ _ Hdeg), bind_Ret.
  reflexivity.
Qed.

(** [j] rounds that move on: the loop is then where [newton_iterate] says,
    with the entries of [newton_records] appended, and has issued no
    warning on the way. *)
Lemma newton_loop_iterate (j k : nat) :
  forall (i : Z) (x0 xj : float) (iterations : list newton_step),
    newton_iterate f df tolerance j x0 = Some xj ->
    outcome (newton_loop f df tolerance (j + k) i x0 iterations)
    = outcome (newton_loop f df tolerance k (i + Z.of_nat j) xj
                 (iterations ++ newton_records f df j i x0))
    /\ filter is_warning
         (trace (newton_loop f df tolerance (j + k) i x0 iterations))
       = filter is_warning
           (trace (newton_loop f df tolerance k (i + Z.of_nat j) xj
                     (iterations ++ newton_records f df j i x0))).
Proof.
  induction j as [| j IH]; intros i x0 xj iterations H.
  - injection H as <-. cbn [Nat.add newton_records Z.of_nat].
    rewrite Z.add_0_r, app_nil_r. split; reflexivity.
  - cbn [newton_iterate] in H.
    destruct (newton_next f df tolerance x0) as [x1 |] eqn:Hnext;
      [| discriminate].
    destruct (newton_loop_step (j + k) i x0 x1 iterations Hnext)
      as (fxn & dfxn & Hf & Hdf & -> & Hloop).
    cbn [Nat.add]. rewrite Hloop. cbn [outcome trace fst snd].
    cbn [newton_records]. rewrite Hf, Hdf.
    destruct (IH (i + 1)%Z _ xj (iterations ++ [NewtonStep i x0 fxn dfxn]) H)
      as [Hout Htr].
    replace (i + Z.of_nat (S j))%Z with (i + 1 + Z.of_nat j)%Z by lia.
    rewrite <- app_assoc in Hout, Htr. cbn [app] in Hout, Htr.
    split; [exact Hout |].
    rewrite filter_app. cbn [filter is_warning app]. exact Htr.
Qed.

Lemma newton_records_length (j : nat) :
  forall (i : Z) (x0 xj : float),
    newton_iterate f df tolerance j x0 = Some xj ->
    List.length (newton_records f df j i x0) = j.
Proof.
  induction j as [| j IH]; intros i x0 xj H; [reflexivity |].
  cbn [newton_iterate] in H.
  destruct (newton_next f df tolerance x0) as [x1 |] eqn:Hnext;
    [| discriminate].
  destruct (newton_next_inv _ _ Hnext) as (fxn & dfxn & Hf & Hdf & _ & _ & ->).
  cbn [newton_records]. rewrite Hf, Hdf. cbn [List.length].
  now rewrite (IH _ _ _ H).
Qed.

Lemma newton_records_S (j : nat) (i : Z) (xn fxn dfxn : float) :
  apply_scalar f xn = Ok fxn -> apply_scalar df xn = Ok dfxn ->
  newton_records f df (S j) i xn
  = NewtonStep i xn fxn dfxn
      :: newton_records f df j (i + 1) (xn - fxn / dfxn)%float.
Proof. intros Hf Hdf. cbn [newton_records]. now rewrite Hf, Hdf. Qed.

(** The last of [j + 1] rounds that move on. *)
Lemma newton_iterate_last (j : nat) :
  forall (i : Z) (x0 xk : float),
    newton_iterate f df tolerance (S j) x0 = Some xk ->
    exists xj fxn dfxn,
      newton_iterate f df tolerance j x0 = Some xj
      /\ (abs fxn <? tolerance)%float = false
      /\ (abs dfxn <? 1e-15)%float = false
      /\ newton_records f df (S j) i x0
         = newton_records f df j i x0
             ++ [NewtonStep (i + Z.of_nat j) xj fxn dfxn]
      /\ xk = (xj - fxn / dfxn)%float.
Proof.
  induction j as [| j IH]; intros i x0 xk H.
  - cbn [newton_iterate] in H.
    destruct (newton_next f df tolerance x0) as [x1 |] eqn:Hnext;
      [| discriminate].
    injection H as <-.
    destruct (newton_next_inv _ _ Hnext)
      as (fxn & dfxn & Hf & Hdf & Hconv & Hdeg & ->).
    exists x0, fxn, dfxn. cbn [newton_iterate newton_records Z.of_nat app].
    rewrite Hf, Hdf, Z.add_0_r. auto.
  - remember (S j) as j' eqn:Hj'. cbn [newton_iterate] in H.
    destruct (newton_next f df tolerance x0) as [x1 |] eqn:Hnext;
      [| discriminate].
    destruct (newton_next_inv _ _ Hnext)
      as (fx0 & dfx0 & Hf & Hdf & _ & _ & Hx1).
    subst j'. destruct (IH (i + 1)%Z x1 xk H)
      as (xj & fxn & dfxn & Hit & Hconv & Hdeg & Hrec & ->).
    exists xj, fxn, dfxn. split; [| split; [| split; [| split]]]; auto.
    + cbn [newton_iterate]. now rewrite Hnext.
    + rewrite (newton_records_S (S j) i _ _ _ Hf Hdf).
      rewrite (newton_records_S j i _ _ _ Hf Hdf).
      rewrite <- Hx1, Hrec.
      replace (i + Z.of_nat (S j))%Z with (i + 1 + Z.of_nat j)%Z by lia.
      reflexivity.
Qed.

End Newton.

Section NewtonsMethod.
Context {E : Engine}.
Variables (func : input) (initial_guess : float) (var : expr)
          (tolerance : float) (max_iterations : Z).
Variables (e d : expr) (f df : callable).

(** The call gets to its loop: [func] is an expression or parses to one, and
    it and its derivative are lowered. *)
Hypothesis parsed : outcome (normalize func) = Ret e.
Hypothesis lowered : lambdify var e = Ok f.
Hypothesis differentiated : sp_diff e var 1 = Ok d.
Hypothesis derivative_lowered : lambdify var d = Ok df.

Lemma newtons_method_loop :
  outcome (newtons_method func initial_guess var tolerance max_iterations)
  = outcome (newton_loop f df tolerance (Z.to_nat max_iterations) 0
               initial_guess [])
  /\ warnings (newtons_method func initial_guess var tolerance max_iterations)
     = filter is_warning
         (trace (newton_loop f df tolerance (Z.to_nat max_iterations) 0
                   initial_guess [])).
Proof.
  unfold warnings, newtons_method. split.
  - rewrite (outcome_bind _ _ _ parsed).
    rewrite outcome_bind_case, outcome_engine, lowered.
    rewrite outcome_bind_case, outcome_engine, differentiated.
    rewrite outcome_bind_case, outcome_engine, derivative_lowered.
    reflexivity.
  - rewrite (trace_bind _ _ _ parsed).
    rewrite trace_bind_case, outcome_engine, trace_engine, lowered.
    rewrite trace_bind_case, outcome_engine, trace_engine, differentiated.
    rewrite trace_bind_case, outcome_engine, trace_engine, derivative_lowered.
    rewrite !filter_app, (proj2 (normalize_no_evaluation func)).
    reflexivity.
Qed.

(** C4: when round [i] of the loop is reached and finds the derivative below
    [1e-15] in absolute value while [|f(x)| >= tolerance], the call ends
    there: it returns no root, with the entries of rounds [0 .. i], after
    the warning. *)
Theorem newtons_method_degenerate (i : nat) (xi fxi dfxi : float) :
  (Z.of_nat i < max_iterations)%Z ->
  newton_iterate f df tolerance i initial_guess = Some xi ->
  apply_scalar f xi = Ok fxi ->
  apply_scalar df xi = Ok dfxi ->
  (tolerance <=? abs fxi)%float = true ->
  (abs dfxi <? 1e-15)%float = true ->
  outcome (newtons_method func initial_guess var tolerance max_iterations)
  = Ret (None, newton_records f df i 0 initial_guess
                 ++ [NewtonStep (Z.of_nat i) xi fxi dfxi])
  /\ List.length (newton_records f df i 0 initial_guess
                    ++ [NewtonStep (Z.of_nat i) xi fxi dfxi]) = S i
  /\ warnings (newtons_method func initial_guess var tolerance max_iterations)
     = [EvWarn "Derivative near zero, Newton's method may fail"].
Proof.
  intros Hi Hreach Hf Hdf Hge Hdeg.
  destruct newtons_method_loop as [-> ->].
  replace (Z.to_nat max_iterations)
    with (i + S (Z.to_nat max_iterations - S i))%nat by lia.
  destruct (newton_loop_iterate f df tolerance i
              (S (Z.to_nat max_iterations - S i)) 0 initial_guess xi [] Hreach)
    as [-> ->].
  cbn [newton_loop app]. unfold engine. rewrite Hf, Hdf, !bind_Ret.
  cbn [outcome trace fst snd]. rewrite (float_le_not_lt _ _ Hge), Hdeg.
  split; [reflexivity |]. split; [| reflexivity].
  rewrite length_app, (newton_records_length f df tolerance i 0 _ _ Hreach).
  cbn. lia.
Qed.

(** C5, as amended: when all [max_iterations] rounds move on, the call
    returns the approximation the last update produced, with the entries of
    all rounds, after the warning.  The value returned is one Newton update
    past the [x] of the final entry. *)
Theorem newtons_method_exhausted (xk : float) :
  newton_iterate f df tolerance (Z.to_nat max_iterations) initial_guess
  = Some xk ->
  outcome (newtons_method func initial_guess var tolerance max_iterations)
  = Ret (Some xk,
         newton_records f df (Z.to_nat max_iterations) 0 initial_guess)
  /\ List.length (newton_records f df (Z.to_nat max_iterations) 0
                    initial_guess) = Z.to_nat max_iterations
  /\ warnings (newtons_method func initial_guess var tolerance max_iterations)
     = [EvWarn "Maximum iterations reached"]
  /\ (forall j, Z.to_nat max_iterations = S j ->
        exists xj fxn dfxn,
          newton_records f df (Z.to_nat max_iterations) 0 initial_guess
          = newton_records f df j 0 initial_guess
              ++ [NewtonStep (Z.of_nat j) xj fxn dfxn]
          /\ xk = (xj - fxn / dfxn)%float).
Proof.
  intros Hall. destruct newtons_method_loop as [-> ->].
  pose proof (newton_loop_iterate f df tolerance (Z.to_nat max_iterations) 0
                0 initial_guess xk [] Hall) as Hloop.
  rewrite Nat.add_0_r in Hloop. destruct Hloop as [-> ->].
  cbn [newton_loop app]. split; [reflexivity |].
  split; [exact (newton_records_length f df tolerance _ 0 _ _ Hall) |].
  split; [reflexivity |].
  intros j Hj. rewrite Hj in Hall |- *.
  destruct (newton_iterate_last f df tolerance j 0 initial_guess xk Hall)
    as (xj & fxn & dfxn & _ & _ & _ & Hrec & Hxk).
  exists xj, fxn, dfxn. now rewrite Hrec.
Qed.

End NewtonsMethod.

(** The theorem on [newtons_method(x**2 + 1, 0)]: the derivative [2*x] is
    [0] at the first point, where [f] is [1]. *)
Lemma newtons_method_degenerate_witness :
  outcome (newtons_method (E := ref)
             (RefSym (Reference.RAdd (Reference.RMul Reference.x Reference.x)
                        (Reference.RNum 1)))
             0 Reference.x 1e-10 100)
  = Ret (None, [NewtonStep 0 0 1 0]).
Proof.
  refine (proj1 (newtons_method_degenerate (E := ref)
            (RefSym (Reference.RAdd (Reference.RMul Reference.x Reference.x)
                       (Reference.RNum 1)))
            0 Reference.x 1e-10 100 _ _ _ _
            eq_refl eq_refl eq_refl eq_refl 0 0 1 0 _ eq_refl eq_refl eq_refl
            eq_refl eq_refl)).
  lia.
Defined.

(** The theorem on [newtons_method(x**2 + 1, 1, max_iterations=1)]: the one
    round moves from [1] to [1 - 2/2]. *)
Lemma newtons_method_exhausted_witness :
  outcome (newtons_method (E := ref)
             (RefSym (Reference.RAdd (Reference.RMul Reference.x Reference.x)
                        (Reference.RNum 1)))
             1 Reference.x 1e-10 1)
  = Ret (Some 0%float, [NewtonStep 0 1 2 2]).
Proof.
  refine (proj1 (newtons_method_exhausted (E := ref)
            (RefSym (Reference.RAdd (Reference.RMul Reference.x Reference.x)
                       (Reference.RNum 1)))
            1 Reference.x 1e-10 1 _ _ _ _
            eq_refl eq_refl eq_refl eq_refl 0 eq_refl)).
Defined.

(** C5 as stated fails: in [newtons_method(x**2 + 1, 1, max_iterations=1)]
    the only round neither converges ([|f(1)| = 2]) nor finds the derivative
    near zero ([f'(1) = 2]), and the value returned, [0], is not the [x] of
    the final entry, [1]. *)
Lemma newtons_method_returns_next_iterate :
  newtons_method (E := ref)
    (RefSym (Reference.RAdd (Reference.RMul Reference.x Reference.x)
               (Reference.RNum 1)))
    1 Reference.x 1e-10 1
  = ([EvLambdify; EvDiff; EvLambdify; EvApply; EvApply;
      EvWarn "Maximum iterations reached"],
     Ret (Some 0%float, [NewtonStep 0 1 2 2]))
  /\ (abs 2 <? 1e-10)%float = false
  /\ (abs 2 <? 1e-15)%float = false
  /\ (0 =? nw_x (NewtonStep 0 1 2 2))%float = false.
Proof. repeat split. Qed.

(** ** tangent_line *)

Section TangentLine.
Context {E : Engine}.
Variables (var point : expr).

(** What the engine does when [point] is substituted for [var].  A quantity
    is finite when its product with [0] is [0]; [oo], [zoo] and [nan] are
    not.  Sums and products are rebuilt from the substituted parts where
    these are finite, [var - point] becomes [0], and a sum with [0] is its
    other term. *)
Hypothesis subs_add :
  forall a b a' b',
    subs a var point = Ok a' -> subs b var point = Ok b' ->
    mul a' zero = zero ->
    subs (add a b) var point = Ok (add a' b').
Hypothesis subs_mul :
  forall a b a' b',
    subs a var point = Ok a' -> subs b var point = Ok b' ->
    mul a' zero = zero -> mul b' zero = zero ->
    subs (mul a b) var point = Ok (mul a' b').
Hypothesis subs_difference : subs (sub var point) var point = Ok zero.
Hypothesis add_zero_l : forall y, add zero y = y.
Hypothesis mul_zero_zero : mul zero zero = zero.


End TangentLine.










(** * Further properties *)

(** ** newtons_method: what a call can end in *)

Section NewtonOutcomes.
Context {E : Engine}.
Variables (f df : callable) (tolerance : float).

(** The numbers [i, i + 1, ...] of [n] consecutive rounds. *)
Lemma numbering_cons (i : Z) (n : nat) :
  i :: map (fun j => (i + 1 + Z.of_nat j)%Z) (seq 0 n)
  = map (fun j => (i + Z.of_nat j)%Z) (seq 0 (S n)).
Proof.
  cbn [seq map]. rewrite Z.add_0_r. f_equal.
  rewrite <- seq_shift, map_map. apply map_ext. intros j. lia.
Qed.

(** The loop never lets Python's ZeroDivisionError out: only what the
    lowered functions raise. *)
Lemma newton_loop_raises (k : nat) :
  forall (i : Z) (xn : float) (iterations : list newton_step) (ex : exn),
    outcome (newton_loop f df tolerance k i xn iterations) = Raise ex ->
    exists msg, ex = EngineError msg.
Proof.
  induction k as [| k IH]; intros i xn iterations ex; [discriminate |].
  cbn [newton_loop].
  rewrite outcome_bind_case, outcome_engine.
  destruct (apply_scalar f xn) as [fxn | m]; [| intros [= <-]; eauto].
  rewrite outcome_bind_case, outcome_engine.
  destruct (apply_scalar df xn) as [dfxn | m]; [| intros [= <-]; eauto].
  destruct (abs fxn <? tolerance)%float; [discriminate |].
  destruct (abs dfxn <? 1e-15)%float eqn:Hdeg; [discriminate |].
  unfold python. rewrite (truediv_guarded _ _ Hdeg), bind_Ret.
  cbn [outcome snd]. apply IH.
Qed.

(** What the loop returns: the entries it was given followed by at most [k]
    new ones, numbered consecutively from [i], and one of three endings. *)
Lemma newton_loop_returns (k : nat) :
  forall (i : Z) (xn : float) (iterations its : list newton_step)
         (root : option float),
    outcome (newton_loop f df tolerance k i xn iterations) = Ret (root, its) ->
    exists recs,
      its = iterations ++ recs
      /\ (List.length recs <= k)%nat
      /\ map nw_iteration recs
         = map (fun j => (i + Z.of_nat j)%Z) (seq 0 (List.length recs))
      /\ ((exists x pre j fx dfx,
             root = Some x
             /\ filter is_warning
                  (trace (newton_loop f df tolerance k i xn iterations)) = []
             /\ recs = pre ++ [NewtonStep j x fx dfx]
             /\ apply_scalar f x = Ok fx
             /\ (abs fx <? tolerance)%float = true)
          \/ (root = None
              /\ filter is_warning
                   (trace (newton_loop f df tolerance k i xn iterations))
                 = [EvWarn "Derivative near zero, Newton's method may fail"]
              /\ recs <> [])
          \/ (exists x,
                root = Some x
                /\ filter is_warning
                     (trace (newton_loop f df tolerance k i xn iterations))
                   = [EvWarn "Maximum iterations reached"]
                /\ List.length recs = k)).
Proof.
  induction k as [| k IH]; intros i xn iterations its root.
  - cbn. intros [= <- <-]. exists []. rewrite app_nil_r.
    repeat split; auto. right. right. eauto.
  - cbn [newton_loop]. unfold engine.
    destruct (apply_scalar f xn) as [fxn | m] eqn:Hf; [| discriminate].
    destruct (apply_scalar df xn) as [dfxn | m] eqn:Hdf; [| discriminate].
    rewrite !bind_Ret. cbn [outcome trace fst snd app].
    destruct (abs fxn <? tolerance)%float eqn:Hconv.
    + cbn. intros [= <- <-]. exists [NewtonStep i xn fxn dfxn].
      split; [reflexivity |]. split; [cbn; lia |].
      split; [cbn; now rewrite Z.add_0_r |].
      left. exists xn, [], i, fxn, dfxn. auto.
    + destruct (abs dfxn <? 1e-15)%float eqn:Hdeg.
      * cbn. intros [= <- <-]. exists [NewtonStep i xn fxn dfxn].
        split; [reflexivity |]. split; [cbn; lia |].
        split; [cbn; now rewrite Z.add_0_r |].
        right. left. repeat split; auto. discriminate.
      * unfold python. rewrite (truediv_guarded _ _ Hdeg), bind_Ret.
        cbn [outcome trace fst snd app filter is_warning].
        intros H. destruct (IH _ _ _ _ _ H)
          as (recs & -> & Hlen & Hnum & Hend).
        exists (NewtonStep i xn fxn dfxn :: recs).
        split; [now rewrite <- app_assoc |].
        split; [cbn; lia |].
        split; [cbn [map List.length nw_iteration]; rewrite Hnum;
                apply numbering_cons |].
        destruct Hend as [(x & pre & j & fx & dfx & -> & Hw & -> & Hfx & Hc)
                         | [(-> & Hw & Hne) | (x & -> & Hw & Hk)]].
        -- left. exists x, (NewtonStep i xn fxn dfxn :: pre), j, fx, dfx.
           auto.
        -- right. left. repeat split; auto. discriminate.
        -- right. right. exists x. repeat split; auto. cbn. lia.
Qed.

End NewtonOutcomes.

Section NewtonsMethodOutcomes.
Context {E : Engine}.
Variables (func : input) (initial_guess : float) (var : expr)
          (tolerance : float) (max_iterations : Z).

(** A call that returns got to its loop. *)
Lemma newtons_method_returns_inv (v : option float * list newton_step) :
  outcome (newtons_method func initial_guess var tolerance max_iterations)
  = Ret v ->
  exists e d f df,
    outcome (normalize func) = Ret e /\ lambdify var e = Ok f
    /\ sp_diff e var 1 = Ok d /\ lambdify var d = Ok df.
Proof.
  unfold newtons_method. rewrite outcome_bind_case.
  destruct (outcome (normalize func)) as [e |] eqn:He; [| discriminate].
  rewrite outcome_bind_case, outcome_engine.
  destruct (lambdify var e) as [f |] eqn:Hf; [| discriminate].
  rewrite outcome_bind_case, outcome_engine.
  destruct (sp_diff e var 1) as [d |] eqn:Hd; [| discriminate].
  rewrite outcome_bind_case, outcome_engine.
  destruct (lambdify var d) as [df |] eqn:Hdf; [| discriminate].
  intros _. exists e, d, f, df. auto.
Qed.

(** X1: every record [newtons_method] returns has at most [max_iterations]
    entries, and they are numbered [0, 1, 2, ...] in order. *)
Theorem newtons_method_record (root : option float) (its : list newton_step) :
  outcome (newtons_method func initial_guess var tolerance max_iterations)
  = Ret (root, its) ->
  (List.length its <= Z.to_nat max_iterations)%nat
  /\ map nw_iteration its = map Z.of_nat (seq 0 (List.length its)).
Proof.
  intros H.
  destruct (newtons_method_returns_inv _ H) as (e & d & f & df & He & Hf & Hd & Hdf).
  rewrite (proj1 (newtons_method_loop func initial_guess var tolerance
                    max_iterations e d f df He Hf Hd Hdf)) in H.
  destruct (newton_loop_returns f df tolerance _ _ _ _ _ _ H)
    as (recs & -> & Hlen & Hnum & _).
  cbn [app]. split; [exact Hlen |]. rewrite Hnum. apply map_ext. intros j. lia.
Qed.

(** X2: a call that returns ends in one of three ways, told apart by the
    warning.  Without a warning the root is the [x] of the last entry and
    passes the tolerance test there; with the derivative warning there is
    no root; with the iterations warning all [max_iterations] rounds were
    run. *)
Theorem newtons_method_outcomes (root : option float) (its : list newton_step) :
  outcome (newtons_method func initial_guess var tolerance max_iterations)
  = Ret (root, its) ->
  (exists x pre j fx dfx e f,
     root = Some x
     /\ warnings (newtons_method func initial_guess var tolerance
                    max_iterations) = []
     /\ its = pre ++ [NewtonStep j x fx dfx]
     /\ outcome (normalize func) = Ret e /\ lambdify var e = Ok f
     /\ apply_scalar f x = Ok fx
     /\ (abs fx <? tolerance)%float = true)
  \/ (root = None
      /\ warnings (newtons_method func initial_guess var tolerance
                     max_iterations)
         = [EvWarn "Derivative near zero, Newton's method may fail"]
      /\ its <> [])
  \/ (exists x,
        root = Some x
        /\ warnings (newtons_method func initial_guess var tolerance
                       max_iterations)
           = [EvWarn "Maximum iterations reached"]
        /\ List.length its = Z.to_nat max_iterations).
Proof.
  intros H.
  destruct (newtons_method_returns_inv _ H) as (e & d & f & df & He & Hf & Hd & Hdf).
  destruct (newtons_method_loop func initial_guess var tolerance
              max_iterations e d f df He Hf Hd Hdf) as [Hout Hwarn].
  rewrite Hout in H. rewrite Hwarn.
  destruct (newton_loop_returns f df tolerance _ _ _ _ _ _ H)
    as (recs & -> & _ & _ & Hend). cbn [app].
  destruct Hend as [(x & pre & j & fx & dfx & -> & Hw & -> & Hfx & Hc)
                   | [(-> & Hw & Hne) | (x & -> & Hw & Hk)]].
  - left. exists x, pre, j, fx, dfx, e, f. auto 10.
  - right. left. auto.
  - right. right. eauto.
Qed.

(** X3: the only exceptions [newtons_method] lets out are those raised
    inside the engine (the parse, the derivative, the lowering, the lowered
    functions).  The division of the update never raises: it is reached only
    with a derivative value that is not zero. *)
Theorem newtons_method_raises (ex : exn) :
  outcome (newtons_method func initial_guess var tolerance max_iterations)
  = Raise ex ->
  exists msg, ex = EngineError msg.
Proof.
  unfold newtons_method. rewrite outcome_bind_case.
  destruct (outcome (normalize func)) as [e | ex'] eqn:He;
    [| intros [= <-]; exact (normalize_raises _ _ He)].
  rewrite outcome_bind_case, outcome_engine.
  destruct (lambdify var e) as [f |]; [| intros [= <-]; eauto].
  rewrite outcome_bind_case, outcome_engine.
  destruct (sp_diff e var 1) as [d |]; [| intros [= <-]; eauto].
  rewrite outcome_bind_case, outcome_engine.
  destruct (lambdify var d) as [df |]; [| intros [= <-]; eauto].
  apply newton_loop_raises.
Qed.

End NewtonsMethodOutcomes.

Section NewtonsMethodMore.
Context {E : Engine}.
Variables (func : input) (initial_guess : float) (var : expr)
          (tolerance : float) (max_iterations : Z).
Variables (e d : expr) (f df : callable).
Hypothesis parsed : outcome (normalize func) = Ret e.
Hypothesis lowered : lambdify var e = Ok f.
Hypothesis differentiated : sp_diff e var 1 = Ok d.
Hypothesis derivative_lowered : lambdify var d = Ok df.

(** X4: when round [i] is reached and finds [|f(x)| < tolerance], the call
    returns that [x] with the entries of rounds [0 .. i] and no warning,
    whatever the derivative is there: the convergence test comes before the
    test on the derivative. *)
Theorem newtons_method_converged (i : nat) (xi fxi dfxi : float) :
  (Z.of_nat i < max_iterations)%Z ->
  newton_iterate f df tolerance i initial_guess = Some xi ->
  apply_scalar f xi = Ok fxi ->
  apply_scalar df xi = Ok dfxi ->
  (abs fxi <? tolerance)%float = true ->
  outcome (newtons_method func initial_guess var tolerance max_iterations)
  = Ret (Some xi, newton_records f df i 0 initial_guess
                    ++ [NewtonStep (Z.of_nat i) xi fxi dfxi])
  /\ warnings (newtons_method func initial_guess var tolerance max_iterations)
     = [].
Proof.
  intros Hi Hreach Hf Hdf Hconv.
  destruct (newtons_method_loop func initial_guess var tolerance
              max_iterations e d f df parsed lowered differentiated
              derivative_lowered) as [-> ->].
  replace (Z.to_nat max_iterations)
    with (i + S (Z.to_nat max_iterations - S i))%nat by lia.
  destruct (newton_loop_iterate f df tolerance i
              (S (Z.to_nat max_iterations - S i)) 0 initial_guess xi [] Hreach)
    as [-> ->].
  cbn [newton_loop app]. unfold engine. rewrite Hf, Hdf, !bind_Ret.
  cbn [outcome trace fst snd]. rewrite Hconv. split; reflexivity.
Qed.

(** X5: with [max_iterations <= 0] no round is run: the functions are
    lowered but never evaluated, and the initial guess is returned as it is,
    with an empty record and the iterations warning. *)
Theorem newtons_method_no_rounds :
  (max_iterations <= 0)%Z ->
  newtons_method func initial_guess var tolerance max_iterations
  = (trace (normalize func)
       ++ [EvLambdify; EvDiff; EvLambdify; EvWarn "Maximum iterations reached"],
     Ret (Some initial_guess, [])).
Proof.
  intros Hmax. unfold newtons_method.
  replace (Z.to_nat max_iterations) with 0%nat by lia.
  destruct (normalize func) as [t r]. cbn in parsed. subst r.
  rewrite bind_Ret. unfold engine.
  rewrite lowered, bind_Ret, differentiated, bind_Ret, derivative_lowered,
    bind_Ret.
  reflexivity.
Qed.

End NewtonsMethodMore.

(** [newtons_method(x**2 + 1, 0)] ends at its first round, with one entry
    numbered [0]. *)
Lemma newtons_method_record_witness :
  (List.length [NewtonStep 0 0 1 0] <= Z.to_nat 100)%nat
  /\ map nw_iteration [NewtonStep 0 0 1 0]
     = map Z.of_nat (seq 0 (List.length [NewtonStep 0 0 1 0])).
Proof.
  exact (newtons_method_record (E := ref)
           (RefSym (Reference.RAdd (Reference.RMul Reference.x Reference.x)
                      (Reference.RNum 1)))
           0 Reference.x 1e-10 100 None [NewtonStep 0 0 1 0] eq_refl).
Defined.

(** The same call is one of the three endings. *)
Lemma newtons_method_outcomes_witness :
  exists root its,
    outcome (newtons_method (E := ref)
               (RefSym (Reference.RAdd (Reference.RMul Reference.x Reference.x)
                          (Reference.RNum 1)))
               0 Reference.x 1e-10 100) = Ret (root, its)
    /\ (root = None \/ exists x, root = Some x).
Proof.
  exists None, [NewtonStep 0 0 1 0]. split; [reflexivity |].
  destruct (newtons_method_outcomes (E := ref)
              (RefSym (Reference.RAdd (Reference.RMul Reference.x Reference.x)
                         (Reference.RNum 1)))
              0 Reference.x 1e-10 100 None [NewtonStep 0 0 1 0] eq_refl)
    as [(x & _ & _ & _ & _ & _ & _ & H & _) | [(H & _) | (x & H & _)]].
  - discriminate H.
  - left. exact H.
  - discriminate H.
Defined.

(** [newtons_method("(", 0)] raises the engine's parse error. *)
Lemma newtons_method_raises_witness :
  exists msg,
    EngineError "SympifyError: could not parse '('" = EngineError msg.
Proof.
  exact (newtons_method_raises (E := ref) (Text "(") 0 Reference.x 1e-10 100
           (EngineError "SympifyError: could not parse '('") eq_refl).
Defined.

(** [newtons_method(x**2 - 2, 1)] converges, without a warning. *)
Lemma newtons_method_converged_witness :
  warnings (newtons_method (E := ref)
              (RefSym (Reference.RAdd (Reference.RMul Reference.x Reference.x)
                         (Reference.RNum (-2))))
              1 Reference.x 1e-10 100)
  = [].
Proof.
  refine (proj2 (newtons_method_converged (E := ref)
            (RefSym (Reference.RAdd (Reference.RMul Reference.x Reference.x)
                       (Reference.RNum (-2))))
            1 Reference.x 1e-10 100 _ _ _ _
            eq_refl eq_refl eq_refl eq_refl 4 _ _ _ _ eq_refl eq_refl eq_refl
            eq_refl)).
  lia.
Defined.

(** [newtons_method(x**2 + 1, 1, max_iterations=0)] returns [1.0]. *)
Lemma newtons_method_no_rounds_witness :
  newtons_method (E := ref)
    (RefSym (Reference.RAdd (Reference.RMul Reference.x Reference.x)
               (Reference.RNum 1)))
    1 Reference.x 1e-10 0
  = ([EvLambdify; EvDiff; EvLambdify; EvWarn "Maximum iterations reached"],
     Ret (Some 1%float, [])).
Proof.
  refine (newtons_method_no_rounds (E := ref)
            (RefSym (Reference.RAdd (Reference.RMul Reference.x Reference.x)
                       (Reference.RNum 1)))
            1 Reference.x 1e-10 0 _ _ _ _
            eq_refl eq_refl eq_refl eq_refl _).
  lia.
Defined.

(** ** lhopital_rule: the rounds after the first *)

Section LHopitalRounds.
Context {E : Engine}.
Variables (var point : expr).

Lemma lh_next_inv (num den num' den' : expr) :
  lh_next num den var point = Some (num', den') ->
  exists num_val den_val,
    sp_limit num var point DirDefault = Ok num_val
    /\ sp_limit den var point DirDefault = Ok den_val
    /\ indeterminate num_val den_val = true
    /\ sp_diff num var 1 = Ok num'
    /\ sp_diff den var 1 = Ok den'.
Proof.
  unfold lh_next.
  destruct (sp_limit num var point DirDefault) as [nv |]; [| discriminate].
  destruct (sp_limit den var point DirDefault) as [dv |]; [| discriminate].
  destruct (indeterminate nv dv) eqn:Hind; [| discriminate].
  destruct (sp_diff num var 1) as [n1 |]; [| discriminate].
  destruct (sp_diff den var 1) as [d1 |]; [| discriminate].
  intros [= <- <-]. exists nv, dv. auto.
Qed.

(** One indeterminate round. *)
Lemma lhopital_loop_step (k : nat) (i : Z)
    (num den num' den' num_val den_val : expr) (steps : list lh_step) :
  sp_limit num var point DirDefault = Ok num_val ->
  sp_limit den var point DirDefault = Ok den_val ->
  indeterminate num_val den_val = true ->
  sp_diff num var 1 = Ok num' ->
  sp_diff den var 1 = Ok den' ->
  lh_records (S k) i num den var point
  = LhStep i num den num_val den_val
      :: lh_records k (i + 1) num' den' var point
  /\ outcome (lhopital_loop (S k) i num den var point steps)
     = outcome (lhopital_loop k (i + 1) num' den' var point
                  (steps ++ [LhStep i num den num_val den_val])).
Proof.
  intros Hn Hd Hind Hn' Hd'. split.
  - cbn [lh_records]. now rewrite Hn, Hd, Hn', Hd'.
  - cbn [lhopital_loop].
    rewrite outcome_bind_case, outcome_engine, Hn.
    rewrite outcome_bind_case, outcome_engine, Hd.
    rewrite Hind. cbn [negb].
    rewrite outcome_bind_case, outcome_engine, Hn'.
    rewrite outcome_bind_case, outcome_engine, Hd'.
    reflexivity.
Qed.

(** [j] indeterminate rounds. *)
Lemma lhopital_loop_iterate (j k : nat) :
  forall (i : Z) (num den numj denj : expr) (steps : list lh_step),
    lh_iterate j num den var point = Some (numj, denj) ->
    outcome (lhopital_loop (j + k) i num den var point steps)
    = outcome (lhopital_loop k (i + Z.of_nat j) numj denj var point
                 (steps ++ lh_records j i num den var point))
    /\ List.length (lh_records j i num den var point) = j
    /\ forallb lh_indeterminate (lh_records j i num den var point) = true.
Proof.
  induction j as [| j IH]; intros i num den numj denj steps H.
  - injection H as <- <-. cbn [Nat.add lh_records Z.of_nat].
    rewrite Z.add_0_r, app_nil_r. repeat split.
  - cbn [lh_iterate] in H.
    destruct (lh_next num den var point) as [[num' den'] |] eqn:Hnext;
      [| discriminate].
    destruct (lh_next_inv _ _ _ _ Hnext) as (nv & dv & Hn & Hd & Hind & Hn' & Hd').
    destruct (lhopital_loop_step (j + k) i num den num' den' nv dv steps
                Hn Hd Hind Hn' Hd') as [_ Hloop].
    destruct (lhopital_loop_step j i num den num' den' nv dv steps
                Hn Hd Hind Hn' Hd') as [Hrec _].
    cbn [Nat.add]. rewrite Hloop, Hrec.
    destruct (IH (i + 1)%Z num' den' numj denj
                (steps ++ [LhStep i num den nv dv]) H)
      as (Hout & Hlen & Hall).
    replace (i + Z.of_nat (S j))%Z with (i + 1 + Z.of_nat j)%Z by lia.
    rewrite <- app_assoc in Hout. cbn [app] in Hout.
    split; [exact Hout |]. split.
    + cbn [List.length]. now rewrite Hlen.
    + cbn [forallb]. unfold lh_indeterminate at 1.
      cbn [lh_num_limit lh_den_limit]. now rewrite Hind, Hall.
Qed.

End LHopitalRounds.

Section LHopitalOutcomes.
Context {E : Engine}.
Variables (var point : expr).

(** What the loop returns: the entries it was given followed by at most [k]
    new ones, numbered consecutively from [i].  Either the last new entry
    is determinate, all before it are indeterminate and the result is read
    off it, or all [k] rounds were indeterminate. *)
Lemma lhopital_loop_returns (k : nat) :
  forall (i : Z) (num den res : expr) (steps steps' : list lh_step),
    outcome (lhopital_loop k i num den var point steps) = Ret (res, steps') ->
    exists recs,
      steps' = steps ++ recs
      /\ (List.length recs <= k)%nat
      /\ map lh_iteration recs
         = map (fun j => (i + Z.of_nat j)%Z) (seq 0 (List.length recs))
      /\ ((exists pre st,
             recs = pre ++ [st]
             /\ forallb lh_indeterminate pre = true
             /\ lh_indeterminate st = false
             /\ res = if negb (expr_eqb (lh_den_limit st) zero)
                      then div (lh_num_limit st) (lh_den_limit st) else oo)
          \/ (forallb lh_indeterminate recs = true
              /\ List.length recs = k)).
Proof.
  induction k as [| k IH]; intros i num den res steps steps'.
  - cbn [lhopital_loop]. rewrite outcome_bind_case, outcome_engine.
    destruct (sp_limit (div num den) var point DirDefault); [| discriminate].
    cbn. intros [= <- <-]. exists []. rewrite app_nil_r.
    repeat split; auto.
  - cbn [lhopital_loop].
    rewrite outcome_bind_case, outcome_engine.
    destruct (sp_limit num var point DirDefault) as [nv |]; [| discriminate].
    rewrite outcome_bind_case, outcome_engine.
    destruct (sp_limit den var point DirDefault) as [dv |]; [| discriminate].
    destruct (indeterminate nv dv) eqn:Hind; cbn [negb].
    + rewrite outcome_bind_case, outcome_engine.
      destruct (sp_diff num var 1) as [num' |]; [| discriminate].
      rewrite outcome_bind_case, outcome_engine.
      destruct (sp_diff den var 1) as [den' |]; [| discriminate].
      intros H. destruct (IH _ _ _ _ _ _ H) as (recs & -> & Hlen & Hnum & Hend).
      exists (LhStep i num den nv dv :: recs).
      split; [now rewrite <- app_assoc |]. split; [cbn; lia |].
      split; [cbn [map List.length lh_iteration]; rewrite Hnum;
              apply numbering_cons |].
      destruct Hend as [(pre & st & -> & Hpre & Hst & Hres) | [Hall Hk]].
      * left. exists (LhStep i num den nv dv :: pre), st.
        repeat split; auto. cbn [forallb]. unfold lh_indeterminate at 1.
        cbn [lh_num_limit lh_den_limit]. now rewrite Hind, Hpre.
      * right. split; [| cbn; lia]. cbn [forallb].
        unfold lh_indeterminate at 1. cbn [lh_num_limit lh_den_limit].
        now rewrite Hind, Hall.
    + intros H. exists [LhStep i num den nv dv].
      assert (Hst : steps' = steps ++ [LhStep i num den nv dv]
                    /\ res = if negb (expr_eqb dv zero) then div nv dv else oo).
      { destruct (expr_eqb dv zero); cbn in H; injection H as <- <-; auto. }
      destruct Hst as [-> ->].
      split; [reflexivity |]. split; [cbn; lia |].
      split; [cbn; now rewrite Z.add_0_r |].
      left. exists [], (LhStep i num den nv dv). repeat split; auto.
Qed.

Variables (numerator denominator : input) (max_iterations : Z).

(** X6: the record [lhopital_rule] returns has at most [max_iterations]
    entries, numbered [0, 1, 2, ...].  Either the call stopped at its last
    entry (the only determinate one, from which the result is the quotient
    of the two limits, or [oo] for a zero limit of the denominator), or all
    [max_iterations] entries are indeterminate and the result is the final
    attempt. *)
Theorem lhopital_rule_record (res : expr) (steps : list lh_step) :
  outcome (lhopital_rule numerator denominator var point max_iterations)
  = Ret (res, steps) ->
  (List.length steps <= Z.to_nat max_iterations)%nat
  /\ map lh_iteration steps = map Z.of_nat (seq 0 (List.length steps))
  /\ ((exists pre st,
         steps = pre ++ [st]
         /\ forallb lh_indeterminate pre = true
         /\ lh_indeterminate st = false
         /\ res = if negb (expr_eqb (lh_den_limit st) zero)
                  then div (lh_num_limit st) (lh_den_limit st) else oo)
      \/ (forallb lh_indeterminate steps = true
          /\ List.length steps = Z.to_nat max_iterations)).
Proof.
  unfold lhopital_rule. rewrite outcome_bind_case.
  destruct (outcome (normalize numerator)) as [num |]; [| discriminate].
  rewrite outcome_bind_case.
  destruct (outcome (normalize denominator)) as [den |]; [| discriminate].
  intros H. destruct (lhopital_loop_returns _ _ _ _ _ _ _ H)
    as (recs & -> & Hlen & Hnum & Hend).
  cbn [app]. split; [exact Hlen |]. split; [| exact Hend].
  rewrite Hnum. apply map_ext. intros j. lia.
Qed.

Variables (num den : expr).
Hypothesis numerator_parsed : outcome (normalize numerator) = Ret num.
Hypothesis denominator_parsed : outcome (normalize denominator) = Ret den.

(** X7: when the pairs of the first [j] rounds are all indeterminate and
    that of round [j] is not, the call returns the quotient of the limits of
    the [j]-th derivatives (or [oo] for a zero limit of the denominator),
    with [j + 1] entries. *)
Theorem lhopital_rule_resolves (j : nat) (numj denj num_val den_val : expr) :
  (Z.of_nat j < max_iterations)%Z ->
  lh_iterate j num den var point = Some (numj, denj) ->
  sp_limit numj var point DirDefault = Ok num_val ->
  sp_limit denj var point DirDefault = Ok den_val ->
  indeterminate num_val den_val = false ->
  outcome (lhopital_rule numerator denominator var point max_iterations)
  = Ret (if negb (expr_eqb den_val zero) then div num_val den_val else oo,
         lh_records j 0 num den var point
           ++ [LhStep (Z.of_nat j) numj denj num_val den_val])
  /\ List.length (lh_records j 0 num den var point
                    ++ [LhStep (Z.of_nat j) numj denj num_val den_val]) = S j.
Proof.
  intros Hj Hit Hn Hd Hind. unfold lhopital_rule.
  rewrite (outcome_bind _ _ _ numerator_parsed),
          (outcome_bind _ _ _ denominator_parsed).
  replace (Z.to_nat max_iterations)
    with (j + S (Z.to_nat max_iterations - S j))%nat by lia.
  destruct (lhopital_loop_iterate var point j
              (S (Z.to_nat max_iterations - S j)) 0 num den numj denj [] Hit)
    as (-> & Hlen & _).
  cbn [lhopital_loop app].
  rewrite outcome_bind_case, outcome_engine, Hn.
  rewrite outcome_bind_case, outcome_engine, Hd.
  rewrite Hind. cbn [negb]. split.
  - destruct (expr_eqb den_val zero); reflexivity.
  - rewrite length_app, Hlen. cbn. lia.
Qed.

(** X8: when the pairs of all [max_iterations] rounds are indeterminate
    (and with [max_iterations <= 0], when there is no round), the call
    returns the limit of the quotient of the last derivatives, taken as it
    comes, with one entry per round. *)
Theorem lhopital_rule_exhausted (numk denk res : expr) :
  lh_iterate (Z.to_nat max_iterations) num den var point = Some (numk, denk) ->
  sp_limit (div numk denk) var point DirDefault = Ok res ->
  outcome (lhopital_rule numerator denominator var point max_iterations)
  = Ret (res, lh_records (Z.to_nat max_iterations) 0 num den var point)
  /\ List.length (lh_records (Z.to_nat max_iterations) 0 num den var point)
     = Z.to_nat max_iterations.
Proof.
  intros Hit Hres. unfold lhopital_rule.
  rewrite (outcome_bind _ _ _ numerator_parsed),
          (outcome_bind _ _ _ denominator_parsed).
  pose proof (lhopital_loop_iterate var point (Z.to_nat max_iterations) 0
                0 num den numk denk [] Hit) as Hloop.
  rewrite Nat.add_0_r in Hloop. destruct Hloop as (-> & Hlen & _).
  cbn [lhopital_loop app].
  rewrite outcome_bind_case, outcome_engine, Hres. split; [reflexivity | exact Hlen].
Qed.

End LHopitalOutcomes.

(** [lhopital_rule(x*x, x, x, 0)]: the first pair is [(0, 0)], the second
    [(0, 1)]. *)
Lemma lhopital_rule_record_witness :
  exists res steps,
    outcome (lhopital_rule (E := ref)
               (RefSym (Reference.RMul Reference.x Reference.x))
               (RefSym Reference.x) Reference.x (Reference.RNum 0) 5)
    = Ret (res, steps)
    /\ (List.length steps <= Z.to_nat 5)%nat.
Proof.
  eexists _, _. split; [reflexivity |].
  exact (proj1 (lhopital_rule_record (E := ref) Reference.x (Reference.RNum 0)
                  (RefSym (Reference.RMul Reference.x Reference.x))
                  (RefSym Reference.x) 5 _ _ eq_refl)).
Defined.

Lemma lhopital_rule_resolves_witness :
  exists steps,
    outcome (lhopital_rule (E := ref)
               (RefSym (Reference.RMul Reference.x Reference.x))
               (RefSym Reference.x) Reference.x (Reference.RNum 0) 5)
    = Ret (Reference.RNum 0, steps)
    /\ List.length steps = 2%nat.
Proof.
  eexists.
  refine (lhopital_rule_resolves (E := ref) Reference.x (Reference.RNum 0)
            (RefSym (Reference.RMul Reference.x Reference.x))
            (RefSym Reference.x) 5 _ _ eq_refl eq_refl 1 _ _ _ _ _ eq_refl
            eq_refl eq_refl eq_refl).
  lia.
Defined.

(** The same quotient with [max_iterations = 1]: the round is
    indeterminate and the final attempt gives [0]. *)
Lemma lhopital_rule_exhausted_witness :
  exists steps,
    outcome (lhopital_rule (E := ref)
               (RefSym (Reference.RMul Reference.x Reference.x))
               (RefSym Reference.x) Reference.x (Reference.RNum 0) 1)
    = Ret (Reference.RNum 0, steps)
    /\ List.length steps = Z.to_nat 1.
Proof.
  eexists.
  refine (lhopital_rule_exhausted (E := ref) Reference.x (Reference.RNum 0)
            (RefSym (Reference.RMul Reference.x Reference.x))
            (RefSym Reference.x) 1 _ _ eq_refl eq_refl _ _ _ eq_refl eq_refl).
Defined.

(** ** check_continuity: the positive verdict *)

(** X9: [check_continuity] answers [True] in exactly one situation: [func]
    is an expression or parses to one, its value at the point is none of
    [nan], [zoo], [oo], [-oo], its limit there is neither [nan] nor [zoo],
    and the simplified difference of limit and value is [0].  The reason is
    then ["Function is continuous"]. *)
Theorem check_continuity_true_verdict {E : Engine} (func : input)
    (var point : expr) (reason : string) :
  outcome (check_continuity func var point) = Ret (true, reason)
  <-> reason = "Function is continuous"%string
      /\ exists e f_a lim_val s,
           outcome (normalize func) = Ret e
           /\ subs e var point = Ok f_a
           /\ expr_in f_a [nan; zoo; oo; neg oo] = false
           /\ sp_limit e var point DirDefault = Ok lim_val
           /\ expr_in lim_val [nan; zoo] = false
           /\ simplify (sub lim_val f_a) = Ok s
           /\ expr_eqb s zero = true.
Proof.
  unfold check_continuity. split.
  - rewrite outcome_bind_case.
    destruct (outcome (normalize func)) as [e |] eqn:He; [| discriminate].
    destruct (outcome (continuity_checks e var point)) as [v | ex] eqn:Hc.
    2:{ rewrite (outcome_try_raise _ _ _ Hc). discriminate. }
    rewrite (outcome_try_ret _ _ _ Hc). intros [= ->].
    unfold continuity_checks in Hc.
    rewrite outcome_bind_case, outcome_engine in Hc.
    destruct (subs e var point) as [f_a |] eqn:Hfa; [| discriminate].
    destruct (expr_in f_a [nan; zoo; oo; neg oo]) eqn:Hin1; [discriminate |].
    rewrite outcome_bind_case, outcome_engine in Hc.
    destruct (sp_limit e var point DirDefault) as [lim_val |] eqn:Hlim;
      [| discriminate].
    destruct (expr_in lim_val [nan; zoo]) eqn:Hin2; [discriminate |].
    rewrite outcome_bind_case, outcome_engine in Hc.
    destruct (simplify (sub lim_val f_a)) as [s |] eqn:Hs; [| discriminate].
    destruct (expr_eqb s zero) eqn:Hz; [| discriminate].
    injection Hc as <-. split; [reflexivity |].
    exists e, f_a, lim_val, s. auto 10.
  - intros (-> & e & f_a & lim_val & s & He & Hfa & Hin1 & Hlim & Hin2 & Hs & Hz).
    rewrite (outcome_bind _ _ _ He). apply outcome_try_ret.
    unfold continuity_checks.
    rewrite outcome_bind_case, outcome_engine, Hfa, Hin1.
    rewrite outcome_bind_case, outcome_engine, Hlim, Hin2.
    rewrite outcome_bind_case, outcome_engine, Hs, Hz.
    reflexivity.
Qed.

(** ** compute_limit: the direction *)

(** X10: a direction that is neither ["+"] nor ["-"] is not refused: the
    limit is taken as if no direction had been given. *)
Theorem compute_limit_direction_fallback {E : Engine} (f : input)
    (var point : expr) (d : string) :
  d <> "+"%string -> d <> "-"%string ->
  compute_limit f var point (Some d) = compute_limit f var point None.
Proof.
  intros Hp Hm. unfold compute_limit, direction_is.
  now rewrite (proj2 (String.eqb_neq _ _) Hp), (proj2 (String.eqb_neq _ _) Hm).
Qed.

Lemma compute_limit_direction_fallback_witness :
  compute_limit (E := ref) (RefSym Reference.x) Reference.x (Reference.RNum 0)
    (Some "left"%string)
  = compute_limit (E := ref) (RefSym Reference.x) Reference.x
      (Reference.RNum 0) None.
Proof.
  apply (compute_limit_direction_fallback (E := ref)); discriminate.
Defined.

(** ** riemann_sum: when there is no value *)

Lemma sum_on_grid_not_None {E : Engine} (f : callable) (a b : float) (n : Z)
    (dx : float) :
  outcome (sum_on_grid f a b n dx) <> Ret None.
Proof.
  unfold sum_on_grid. rewrite outcome_bind_case, outcome_engine.
  destruct (np_linspace a b n) as [xs |]; [| discriminate].
  rewrite outcome_bind_case, outcome_engine.
  destruct (apply_array f xs) as [ys |]; discriminate.
Qed.

(** X11: [riemann_sum] returns [None] only for a method that is none of
    the four: with ["left"], ["right"], ["midpoint"] or ["trapezoid"] a
    call that returns returns a sum. *)
Theorem riemann_sum_None_unknown_method {E : Engine} (func : input)
    (lower upper : float) (n : Z) (method : string) (var : expr) :
  outcome (riemann_sum func lower upper n method var) = Ret None ->
  ~ In method ["left"; "right"; "midpoint"; "trapezoid"]%string.
Proof.
  unfold riemann_sum. rewrite outcome_bind_case.
  destruct (outcome (normalize func)) as [e |]; [| discriminate].
  rewrite outcome_bind_case, outcome_engine.
  destruct (lambdify var e) as [f |]; [| discriminate].
  rewrite outcome_bind_case. cbn [python outcome snd].
  destruct (truediv_int (upper - lower)%float n) as [dx |]; [| discriminate].
  destruct (method =? "left")%string eqn:Hl;
    [intros H; now apply sum_on_grid_not_None in H |].
  destruct (method =? "right")%string eqn:Hr;
    [intros H; now apply sum_on_grid_not_None in H |].
  destruct (method =? "midpoint")%string eqn:Hmid;
    [intros H; now apply sum_on_grid_not_None in H |].
  destruct (method =? "trapezoid")%string eqn:Ht.
  - rewrite outcome_bind_case, outcome_engine.
    destruct (np_linspace lower upper (n + 1)) as [xs |]; [| discriminate].
    rewrite outcome_bind_case, outcome_engine.
    destruct (apply_array f xs) as [[[| y ys] | c] |]; discriminate.
  - intros _. apply String.eqb_neq in Hl, Hr, Hmid, Ht.
    simpl. intros [H | [H | [H | [H | []]]]]; congruence.
Qed.

Lemma riemann_sum_None_unknown_method_witness :
  ~ In "simpson"%string ["left"; "right"; "midpoint"; "trapezoid"]%string.
Proof.
  exact (riemann_sum_None_unknown_method (E := ref) (RefSym Reference.x)
           0 1 4 "simpson" Reference.x eq_refl).
Defined.

(** ** simpsons_rule: which sample gets which weight *)

Lemma nth_error_stride2 (l : list float) :
  forall j,
    nth_error (stride2 true l) j = nth_error l (2 * j)
    /\ nth_error (stride2 false l) j = nth_error l (2 * j + 1).
Proof.
  induction l as [| y rest IH]; intros j.
  - cbn. now rewrite !nth_error_nil.
  - cbn [stride2]. split.
    + destruct j as [| j]; [reflexivity |].
      replace (2 * S j)%nat with (S (2 * j + 1)) by lia. cbn [nth_error].
      apply IH.
    + replace (2 * j + 1)%nat with (S (2 * j)) by lia. cbn [nth_error].
      apply IH.
Qed.

Lemma nth_error_removelast (l : list float) (j : nat) :
  nth_error (removelast l) j
  = if (S j <? List.length l)%nat then nth_error l j else None.
Proof.
  revert j. induction l as [| y rest IH]; intros j.
  - cbn. now rewrite nth_error_nil.
  - destruct rest as [| z rest'].
    + cbn. now rewrite nth_error_nil.
    + change (removelast (y :: z :: rest')) with (y :: removelast (z :: rest')).
      destruct j as [| j]; [reflexivity |].
      cbn [nth_error]. rewrite IH. reflexivity.
Qed.

(** X12: the two slices of [simpsons_rule] are the interior samples by
    parity: [y_vals[1:-1:2]] holds the samples of index [1, 3, 5, ...] and
    [y_vals[2:-1:2]] those of index [2, 4, 6, ...], both below the last
    index. *)
Theorem simpson_slices_by_parity (ys : list float) (j : nat) :
  nth_error (slice_step2 1 ys) j
  = (if (2 * j + 2 <? List.length ys)%nat then nth_error ys (2 * j + 1)
     else None)
  /\ nth_error (slice_step2 2 ys) j
     = (if (2 * j + 3 <? List.length ys)%nat then nth_error ys (2 * j + 2)
        else None).
Proof.
  unfold slice_step2. split.
  - rewrite (proj1 (nth_error_stride2 _ j)), nth_error_skipn,
      nth_error_removelast.
    replace (1 + 2 * j)%nat with (2 * j + 1)%nat by lia.
    replace (S (2 * j + 1)) with (2 * j + 2)%nat by lia. reflexivity.
  - rewrite (proj1 (nth_error_stride2 _ j)), nth_error_skipn,
      nth_error_removelast.
    replace (2 + 2 * j)%nat with (2 * j + 2)%nat by lia.
    replace (S (2 * j + 2)) with (2 * j + 3)%nat by lia. reflexivity.
Qed.

Lemma stride2_permutation (l : list float) :
  Permutation l (stride2 true l ++ stride2 false l)
  /\ Permutation l (stride2 false l ++ stride2 true l).
Proof.
  induction l as [| y rest [IH1 IH2]]; [split; constructor |].
  cbn [stride2]. split.
  - cbn [app]. now constructor.
  - apply Permutation_cons_app. exact IH1.
Qed.

Lemma stride2_length (l : list float) :
  List.length (stride2 true l) = Nat.div2 (S (List.length l))
  /\ List.length (stride2 false l) = Nat.div2 (List.length l).
Proof.
  induction l as [| y rest [IH1 IH2]]; [split; reflexivity |].
  cbn [stride2 List.length]. split.
  - cbn [Nat.div2]. now rewrite IH2.
  - rewrite IH1. reflexivity.
Qed.

Lemma stride2_tl (l : list float) : stride2 true (tl l) = stride2 false l.
Proof. destruct l; reflexivity. Qed.

(** A list of two or more samples, taken apart at both ends. *)
Lemma two_ends (ys : list float) :
  (2 <= List.length ys)%nat ->
  exists y0 mid yn,
    ys = y0 :: mid ++ [yn]
    /\ getitem_first ys = Ret y0 /\ getitem_last ys = Ret yn
    /\ removelast ys = y0 :: mid.
Proof.
  intros Hlen. destruct ys as [| y0 rest]; [cbn in Hlen; lia |].
  destruct (exists_last (l := rest)) as (mid & yn & ->).
  { intros ->. cbn in Hlen. lia. }
  exists y0, mid, yn. repeat split.
  - cbn. now rewrite last_last.
  - change (y0 :: mid ++ [yn]) with ((y0 :: mid) ++ [yn]).
    apply removelast_last.
Qed.

(** X13: with two samples or more, Simpson's weights cover every sample
    exactly once: the samples are, in some order, the first, the last, those
    of [y_vals[1:-1:2]] and those of [y_vals[2:-1:2]].  For [2*m + 1]
    samples there are [m] of weight 4 and [m - 1] of weight 2. *)
Theorem simpson_weights_cover (ys : list float) (y0 yn : float) :
  (2 <= List.length ys)%nat ->
  getitem_first ys = Ret y0 ->
  getitem_last ys = Ret yn ->
  Permutation ys (y0 :: yn :: slice_step2 1 ys ++ slice_step2 2 ys)
  /\ (forall m, List.length ys = (2 * m + 1)%nat ->
        List.length (slice_step2 1 ys) = m
        /\ List.length (slice_step2 2 ys) = (m - 1)%nat).
Proof.
  intros Hlen H0 Hn.
  destruct (two_ends ys Hlen) as (a & mid & b & -> & Ha & Hb & Hrem).
  rewrite Ha in H0. rewrite Hb in Hn. injection H0 as <-. injection Hn as <-.
  unfold slice_step2. rewrite Hrem.
  change (skipn 1 (a :: mid)) with mid.
  change (skipn 2 (a :: mid)) with (tl mid).
  rewrite stride2_tl. split.
  - apply perm_skip.
    transitivity (b :: mid); [symmetry; apply Permutation_cons_append |].
    apply perm_skip. apply stride2_permutation.
  - intros m Hm. cbn [List.length] in Hm. rewrite length_app in Hm.
    cbn [List.length] in Hm.
    destruct (stride2_length mid) as [-> ->].
    assert (Hmid : List.length mid = (2 * (m - 1) + 1)%nat) by lia.
    rewrite Hmid.
    replace (S (2 * (m - 1) + 1)) with (2 * m)%nat by lia.
    replace (2 * (m - 1) + 1)%nat with (S (2 * (m - 1))) by lia.
    rewrite Nat.div2_double, Nat.div2_succ_double. lia.
Qed.

Lemma simpson_weights_cover_witness :
  Permutation [0; 1; 4; 9; 16]%float
    (0 :: 16 :: slice_step2 1 [0; 1; 4; 9; 16] ++ slice_step2 2 [0; 1; 4; 9; 16])%float
  /\ (forall m, List.length [0; 1; 4; 9; 16]%float = (2 * m + 1)%nat ->
        List.length (slice_step2 1 [0; 1; 4; 9; 16]%float) = m
        /\ List.length (slice_step2 2 [0; 1; 4; 9; 16]%float) = (m - 1)%nat).
Proof.
  apply (simpson_weights_cover [0; 1; 4; 9; 16]%float 0 16);
    [cbn; lia | reflexivity | reflexivity].
Defined.

(** ** Texts that do not parse *)

Section ParseErrors.
Context {E : Engine} {I : EngineInt E}.

Lemma bind_parse_error {B} (s msg : string) (k : expr -> M B) :
  sympify s = Err msg ->
  bind (normalize (Text s)) k = ([EvSympify s], Raise (EngineError msg)).
Proof. intros H. cbn. now rewrite H. Qed.

(** X14: a text that the engine does not parse is not caught by any of
    these wrappers: the call does nothing but the parse and the parse error
    reaches the caller.  ([simpsons_rule] gets to the parse only with an
    even [n].) *)
Theorem parse_error_propagates (s msg : string) :
  sympify s = Err msg ->
  (forall var order,
     compute_derivative (Text s) var order
     = ([EvSympify s], Raise (EngineError msg)))
  /\ (forall point var,
        tangent_line (Text s) point var
        = ([EvSympify s], Raise (EngineError msg)))
  /\ (forall point var,
        normal_line (Text s) point var
        = ([EvSympify s], Raise (EngineError msg)))
  /\ (forall var,
        indefinite_integral (Text s) var
        = ([EvSympify s], Raise (EngineError msg)))
  /\ (forall var lower upper,
        definite_integral (Text s) var lower upper
        = ([EvSympify s], Raise (EngineError msg)))
  /\ (forall var point dir,
        compute_limit (Text s) var point dir
        = ([EvSympify s], Raise (EngineError msg)))
  /\ (forall denominator var point max_iterations,
        lhopital_rule (Text s) denominator var point max_iterations
        = ([EvSympify s], Raise (EngineError msg)))
  /\ (forall initial_guess var tolerance max_iterations,
        newtons_method (Text s) initial_guess var tolerance max_iterations
        = ([EvSympify s], Raise (EngineError msg)))
  /\ (forall lower upper n method var,
        riemann_sum (Text s) lower upper n method var
        = ([EvSympify s], Raise (EngineError msg)))
  /\ (forall lower upper n var,
        Z.even n = true ->
        simpsons_rule (Text s) lower upper n var
        = ([EvSympify s], Raise (EngineError msg))).
Proof.
  intros H. repeat split; intros;
    try (now apply bind_parse_error).
  unfold simpsons_rule. rewrite Zmod_even.
  match goal with Hev : Z.even _ = true |- _ => rewrite Hev end.
  cbn [Z.eqb negb]. now apply bind_parse_error.
Qed.

(** ** normal_line *)

(** X15: [normal_line] sees the point [tangent_line] sees: it makes the same
    engine calls, raises what [tangent_line] raises, and returns the same
    [y_val].  Its normal is [None] exactly when the slope is [0], and
    [(-1/slope) * (var - point) + y_val] otherwise. *)
Theorem normal_line_of_tangent_line (func : input) (point var : expr) :
  trace (normal_line func point var) = trace (tangent_line func point var)
  /\ (forall ex,
        outcome (tangent_line func point var) = Raise ex ->
        outcome (normal_line func point var) = Raise ex)
  /\ (forall tangent slope y_val,
        outcome (tangent_line func point var) = Ret (tangent, slope, y_val) ->
        outcome (normal_line func point var)
        = Ret (if expr_eqb slope zero then None
               else Some (add (mul (div (of_int (-1)) slope) (sub var point))
                              y_val),
               y_val)).
Proof.
  unfold normal_line, tangent_line.
  destruct (normalize func) as [t [e | ex]].
  2:{ cbn. split; [reflexivity |]. split; [intros ? [= <-]; reflexivity |].
      intros ? ? ? H. discriminate H. }
  rewrite !bind_Ret. unfold engine.
  destruct (sp_diff e var 1) as [d | m].
  2:{ cbn. split; [reflexivity |]. split; [intros ? [= <-]; reflexivity |].
      intros ? ? ? H. discriminate H. }
  rewrite !bind_Ret.
  destruct (subs d var point) as [slope | m].
  2:{ cbn. split; [reflexivity |]. split; [intros ? [= <-]; reflexivity |].
      intros ? ? ? H. discriminate H. }
  rewrite !bind_Ret.
  destruct (subs e var point) as [y_val | m].
  2:{ cbn. split; [reflexivity |]. split; [intros ? [= <-]; reflexivity |].
      intros ? ? ? H. discriminate H. }
  rewrite !bind_Ret. cbn [trace outcome fst snd].
  destruct (expr_eqb slope zero) eqn:Hz; cbn [negb];
    (split; [reflexivity |]; split; [intros ? H; discriminate H |]);
    intros tangent slope' y' [= _ <- <-]; now rewrite Hz.
Qed.

End ParseErrors.

Lemma parse_error_propagates_witness :
  tangent_line (E := ref) (Text "(") (Reference.RNum 0) Reference.x
  = ([EvSympify "("],
     Raise (EngineError "SympifyError: could not parse '('")).
Proof.
  exact (proj1 (proj2 (parse_error_propagates (E := ref) "("
                         "SympifyError: could not parse '('" eq_refl))
           (Reference.RNum 0) Reference.x).
Defined.
